(** * flet_audio.audio: the Audio service, its activation check and its
      command methods

    A shallow embedding of [src/flet_audio/audio.py].  The class [Audio]
    is a record; [before_update] is a state-passing function over it; the
    command methods are functions of the Python call they receive
    (positional and keyword arguments, bound against the signature the
    source declares); a coroutine is a function of the command channel
    that logs every [_invoke_method_async] call it awaits; the event loop
    of [asyncio.create_task] is an explicit task table. *)

From Stdlib Require Import List String ZArith QArith Bool Lia Permutation.
Import ListNotations.
Open Scope string_scope.

(** ** Python: exceptions and results *)

Module Py.

Inductive exn_class :=
| AssertionError
| TypeError
| RuntimeError
| TimeoutError
| RemoteError.

Record exn := Exn { exn_cls : exn_class; exn_msg : string }.

(** What a synchronous call does: it returns a value or raises. *)
Inductive result (A : Type) :=
| Ok (a : A)
| Raise (e : exn).
Arguments Ok {A} a.
Arguments Raise {A} e.

(** What awaiting does: it completes (with a value or an exception), or
    the awaiter stays suspended because what it waits for never comes. *)
Inductive outcome (A : Type) :=
| Completed (r : result A)
| Suspended.
Arguments Completed {A} r.
Arguments Suspended {A}.

Definition raised {A} (r : result A) : option exn :=
  match r with Ok _ => None | Raise e => Some e end.

(** The failures of a command, as against those of a malformed call. *)
Definition is_command_failure (e : exn) : bool :=
  match exn_cls e with
  | TimeoutError | RemoteError => true
  | _ => false
  end.

(** [assert cond, msg]: the statement is compiled away when [__debug__] is
    false (interpreter started with -O). *)
Definition assert_ (debug : bool) (cond : bool) (msg : string) : result unit :=
  if debug then
    if cond then Ok tt else Raise (Exn AssertionError msg)
  else Ok tt.

(** Truth value of an [Optional[str]]: [None] and the empty string are
    false. *)
Definition truthy (v : option string) : bool :=
  match v with
  | None => false
  | Some s => negb (s =? "")
  end.

(** [a or b] yields [a] when it is true, [b] otherwise. *)
Definition or_ (a b : option string) : option string :=
  if truthy a then a else b.

End Py.
Import Py.

(** ** flet: the types the source takes from the framework *)

Module Flet.

(** Modelled from the spec: the duration value of section 3 (flet's
    [Duration] class is not in the source): a time span given by its
    components, all of them zero for [Duration()]. *)
Record Duration := mkDuration {
  days : Z; hours : Z; minutes : Z;
  seconds : Z; milliseconds : Z; microseconds : Z
}.

Definition Duration_default : Duration := mkDuration 0 0 0 0 0 0.

Definition in_microseconds (d : Duration) : Z :=
  ((((days d * 24 + hours d) * 60 + minutes d) * 60 + seconds d) * 1000
   + milliseconds d) * 1000 + microseconds d.

(** Modelled from the spec: the release modes of section 3
    ([.types.ReleaseMode] is not in the source). *)
Inductive ReleaseMode := RELEASE | LOOP | STOP.

(** An event handler is a reference to a callable. *)
Inductive handler := Handler (id : nat).

End Flet.
Import Flet.

(** ** Python values and calls *)

#[warnings="-register-all"]
Inductive value :=
| VNone
| VBool (b : bool)
| VInt (z : Z)
| VFloat (q : Q)
| VStr (s : string)
| VDuration (d : Duration)
| VDict (items : list (string * value)).

(** A call site: [f(a1, ..., an, k1=v1, ..., km=vm)]. *)
Record call := Call { c_pos : list value; c_kw : list (string * value) }.

(** A parameter of a [def], with its default when it has one. *)
Record param := Param { p_name : string; p_default : option value }.

Module Binding.

Definition slot : Type := param * option value.

(** Positional arguments fill the parameters from the left; more
    arguments than parameters is an error. *)
Fixpoint fill_positional (ps : list param) (args : list value)
  : option (list slot) :=
  match ps, args with
  | [], [] => Some []
  | [], _ :: _ => None
  | p :: ps', [] => option_map (cons (p, None)) (fill_positional ps' [])
  | p :: ps', a :: args' =>
      option_map (cons (p, Some a)) (fill_positional ps' args')
  end.

(** A keyword argument fills the parameter of its name, which must exist
    and be still empty. *)
Fixpoint fill_keyword (sl : list slot) (k : string) (v : value)
  : result (list slot) :=
  match sl with
  | [] => Raise (Exn TypeError "got an unexpected keyword argument")
  | (p, s) :: rest =>
      if p_name p =? k then
        match s with
        | Some _ => Raise (Exn TypeError "got multiple values for argument")
        | None => Ok ((p, Some v) :: rest)
        end
      else
        match fill_keyword rest k v with
        | Ok rest' => Ok ((p, s) :: rest')
        | Raise e => Raise e
        end
  end.

Fixpoint fill_keywords (sl : list slot) (kws : list (string * value))
  : result (list slot) :=
  match kws with
  | [] => Ok sl
  | (k, v) :: kws' =>
      match fill_keyword sl k v with
      | Ok sl' => fill_keywords sl' kws'
      | Raise e => Raise e
      end
  end.

(** Parameters left empty take their default; one without a default is a
    missing argument. *)
Fixpoint apply_defaults (sl : list slot) : result (list value) :=
  match sl with
  | [] => Ok []
  | (p, s) :: rest =>
      match (match s with Some v => Some v | None => p_default p end) with
      | None => Raise (Exn TypeError "missing a required positional argument")
      | Some v =>
          match apply_defaults rest with
          | Ok vs => Ok (v :: vs)
          | Raise e => Raise e
          end
      end
  end.

(** Binding of the arguments of a call to the parameters of a function
    (positional-or-keyword parameters only, as all of this class are). *)
Definition bind_args (ps : list param) (c : call) : result (list value) :=
  match fill_positional ps (c_pos c) with
  | None => Raise (Exn TypeError "takes fewer positional arguments than given")
  | Some sl =>
      match fill_keywords sl (c_kw c) with
      | Ok sl' => apply_defaults sl'
      | Raise e => Raise e
      end
  end.

End Binding.
Import Binding.

(** A function of one parameter, and one of two. *)
Definition bind1 (ps : list param) (c : call) : result value :=
  match bind_args ps c with
  | Ok [v] => Ok v
  | Ok _ => Raise (Exn TypeError "arity")
  | Raise e => Raise e
  end.

Definition bind2 (ps : list param) (c : call) : result (value * value) :=
  match bind_args ps c with
  | Ok [v1; v2] => Ok (v1, v2)
  | Ok _ => Raise (Exn TypeError "arity")
  | Raise e => Raise e
  end.

(** ** The class [Audio] *)

Record Audio := mkAudio {
  src : option string;
  src_base64 : option string;
  autoplay : bool;
  volume : Q;
  balance : Q;
  playback_rate : Q;
  release_mode : ReleaseMode;
  on_loaded : option handler;
  on_duration_change : option handler;
  on_state_change : option handler;
  on_position_change : option handler;
  on_seek_complete : option handler
}.

(** [Audio()]: every field at the default the class body gives it. *)
Definition Audio_default : Audio :=
  mkAudio None None false 1 0 1 RELEASE None None None None None.

(** [self.src = v] and [self.src_base64 = v]: plain attribute stores, the
    class defines no setter and no [__setattr__]. *)
Definition set_src (v : option string) (self : Audio)
  : result unit * Audio :=
  (Ok tt,
   mkAudio v (src_base64 self) (autoplay self) (volume self) (balance self)
     (playback_rate self) (release_mode self) (on_loaded self)
     (on_duration_change self) (on_state_change self)
     (on_position_change self) (on_seek_complete self)).

Definition set_src_base64 (v : option string) (self : Audio)
  : result unit * Audio :=
  (Ok tt,
   mkAudio (src self) v (autoplay self) (volume self) (balance self)
     (playback_rate self) (release_mode self) (on_loaded self)
     (on_duration_change self) (on_state_change self)
     (on_position_change self) (on_seek_complete self)).

(** What the class runs on: the interpreter's [__debug__] flag and the
    [before_update] of the base class [ft.Service], which is flet's. *)
Record host := Host {
  py_debug : bool;
  Service_before_update : Audio -> result unit * Audio
}.

Definition before_update_message : string :=
  "either src or src_base64 must be provided".

(** [before_update]: the base hook, then the assertion on the two source
    fields as the base hook left them. *)
Definition before_update (h : host) (self : Audio) : result unit * Audio :=
  match Service_before_update h self with
  | (Raise e, self') => (Raise e, self')
  | (Ok _, self') =>
      (assert_ (py_debug h)
         (truthy (or_ (src self') (src_base64 self')))
         before_update_message,
       self')
  end.

(** The base hook as flet has it: it does nothing. *)
Definition flet_host : host := Host true (fun self => (Ok tt, self)).

(** Modelled from the spec: the choice of the effective source (sections
    3 and 6; it is made by the player side, which is not in the source):
    [src_base64] when it is set, else [src]. *)
Inductive source :=
| FromBase64 (data : string)
| FromSrc (location : string).

Definition effective_source (self : Audio) : option source :=
  if truthy (src_base64 self) then
    match src_base64 self with Some b => Some (FromBase64 b) | None => None end
  else if truthy (src self) then
    match src self with Some s => Some (FromSrc s) | None => None end
  else None.

(** ** Coroutines over the command channel *)

(** One awaited [self._invoke_method_async(...)]: the receiver and the
    call as written. *)
Record invocation := Invocation { inv_self : Audio; inv_call : call }.

(** The command channel ([_invoke_method_async] is flet's): what awaiting
    a command yields. *)
Definition Channel : Type := Audio -> call -> outcome value.

(** A coroutine: run against a channel, it extends the log of the commands
    sent and ends with an outcome. *)
Definition Coro (A : Type) : Type :=
  Channel -> list invocation -> outcome A * list invocation.

Definition coro_ret {A} (a : A) : Coro A :=
  fun _ sent => (Completed (Ok a), sent).

Definition coro_bind {A B} (m : Coro A) (k : A -> Coro B) : Coro B :=
  fun ch sent =>
    match m ch sent with
    | (Completed (Ok a), sent') => k a ch sent'
    | (Completed (Raise e), sent') => (Completed (Raise e), sent')
    | (Suspended, sent') => (Suspended, sent')
    end.

Notation "'await' x <- m ;; k" := (coro_bind m (fun x => k))
  (at level 61, x name, m at next level, right associativity).

Definition _invoke_method_async (self : Audio) (c : call) : Coro value :=
  fun ch sent => (ch self c, (sent ++ [Invocation self c])%list).

(** A coroutine awaited by a caller that has sent nothing yet. *)
Definition run_coro {A} (m : Coro A) (ch : Channel)
  : outcome A * list invocation :=
  m ch [].

(** Calling an [async def] binds the arguments at once and gives the
    coroutine; awaiting the call runs it. *)
Definition await_call {A} (m : result (Coro A)) (ch : Channel)
  : outcome A * list invocation :=
  match m with
  | Raise e => (Completed (Raise e), [])
  | Ok coro => run_coro coro ch
  end.

(** ** asyncio: the event loop behind [asyncio.create_task] *)

Module Asyncio.

(** A task wraps a coroutine.  Once the loop has run it, the task holds
    what the coroutine ended with: its value, or the exception it raised
    (stored in the task, not raised into the loop); a coroutine that waits
    for ever leaves its task blocked.  A finished task that nothing refers
    to is collected. *)
Inductive task_state :=
| Scheduled (coro : Coro value)
| Blocked
| Finished (r : result value)
| Collected.

Record runtime := Runtime {
  running : bool;
  tasks : list task_state;
  sent : list invocation;
  reported : list exn
}.

(** [asyncio.create_task(coro)]: needs a running loop; queues the
    coroutine and gives the task back, without running any of it. *)
Definition create_task (coro : Coro value) (rt : runtime)
  : result nat * runtime :=
  if running rt then
    (Ok (List.length (tasks rt)),
     Runtime true (tasks rt ++ [Scheduled coro])%list (sent rt) (reported rt))
  else
    (Raise (Exn RuntimeError "no running event loop"), rt).

(** The loop runs the scheduled tasks in the order they were created. *)
Fixpoint run_tasks (ch : Channel) (ts : list task_state)
  (log : list invocation) : list task_state * list invocation :=
  match ts with
  | [] => ([], log)
  | Scheduled coro :: rest =>
      let '(o, log') := coro ch log in
      let st := match o with
                | Completed r => Finished r
                | Suspended => Blocked
                end in
      let '(rest', log'') := run_tasks ch rest log' in
      (st :: rest', log'')
  | t :: rest =>
      let '(rest', log') := run_tasks ch rest log in
      (t :: rest', log')
  end.

Definition run_ready (ch : Channel) (rt : runtime) : runtime :=
  let '(ts, log) := run_tasks ch (tasks rt) (sent rt) in
  Runtime (running rt) ts log (reported rt).

(** Collection of the task of index [i], once nothing refers to it: a
    finished task leaves the table, and an exception it holds, which
    nobody retrieved, is handed to the exception handler of the loop, which
    logs it.  A task that is not finished, or gone already, is left as it
    is.  A dropped task is collected when it ends, so the order in which
    tasks are collected is that in which they end, not that in which they
    were created: it is given from outside, as a list of indices. *)
Fixpoint collect_at (i : nat) (ts : list task_state)
  : list task_state * list exn :=
  match ts with
  | [] => ([], [])
  | t :: rest =>
      match i with
      | O =>
          match t with
          | Finished r =>
              (Collected :: rest,
               match r with Raise e => [e] | Ok _ => [] end)
          | _ => (t :: rest, [])
          end
      | S j =>
          let '(rest', es) := collect_at j rest in
          (t :: rest', es)
      end
  end.

Definition collect_task (i : nat) (rt : runtime) : runtime :=
  let '(ts, es) := collect_at i (tasks rt) in
  Runtime (running rt) ts (sent rt) (reported rt ++ es)%list.

Fixpoint collect_in (order : list nat) (rt : runtime) : runtime :=
  match order with
  | [] => rt
  | i :: rest => collect_in rest (collect_task i rt)
  end.

End Asyncio.
Import Asyncio.

(** ** The methods of [Audio] *)

Definition timeout_param : param := Param "timeout" (Some (VInt 10)).

Definition play_params : list param :=
  [Param "position" (Some (VDuration Duration_default)); timeout_param].

Definition seek_params : list param :=
  [Param "position" None; timeout_param].

Definition timeout_only_params : list param := [timeout_param].

Definition play_async (self : Audio) (c : call) : result (Coro value) :=
  match bind2 play_params c with
  | Raise e => Raise e
  | Ok (position, timeout) =>
      Ok (await _ <- _invoke_method_async self
                       (Call [VStr "play"; VDict [("position", position)]]
                             [("timeout", timeout)]) ;;
          coro_ret VNone)
  end.

(** A fire-and-forget method: the call of the coroutine function, then
    [asyncio.create_task] on the coroutine, whose task is dropped. *)
Definition spawn (m : result (Coro value)) (rt : runtime)
  : result value * runtime :=
  match m with
  | Raise e => (Raise e, rt)
  | Ok coro =>
      match create_task coro rt with
      | (Raise e, rt') => (Raise e, rt')
      | (Ok _, rt') => (Ok VNone, rt')
      end
  end.

Definition play (self : Audio) (c : call) (rt : runtime)
  : result value * runtime :=
  match bind2 play_params c with
  | Raise e => (Raise e, rt)
  | Ok (position, timeout) =>
      spawn (play_async self (Call [position] [("timeout", timeout)])) rt
  end.

Definition pause_async (self : Audio) (c : call) : result (Coro value) :=
  match bind1 timeout_only_params c with
  | Raise e => Raise e
  | Ok timeout =>
      Ok (await _ <- _invoke_method_async self
                       (Call [VStr "pause"] [("timeout", timeout)]) ;;
          coro_ret VNone)
  end.

Definition pause (self : Audio) (c : call) (rt : runtime)
  : result value * runtime :=
  match bind1 timeout_only_params c with
  | Raise e => (Raise e, rt)
  | Ok timeout => spawn (pause_async self (Call [] [("timeout", timeout)])) rt
  end.

Definition resume_async (self : Audio) (c : call) : result (Coro value) :=
  match bind1 timeout_only_params c with
  | Raise e => Raise e
  | Ok timeout =>
      Ok (await _ <- _invoke_method_async self
                       (Call [VStr "resume"] [("timeout", timeout)]) ;;
          coro_ret VNone)
  end.

Definition resume (self : Audio) (c : call) (rt : runtime)
  : result value * runtime :=
  match bind1 timeout_only_params c with
  | Raise e => (Raise e, rt)
  | Ok timeout => spawn (resume_async self (Call [] [("timeout", timeout)])) rt
  end.

Definition release_async (self : Audio) (c : call) : result (Coro value) :=
  match bind1 timeout_only_params c with
  | Raise e => Raise e
  | Ok timeout =>
      Ok (await _ <- _invoke_method_async self
                       (Call [VStr "release"] [("timeout", timeout)]) ;;
          coro_ret VNone)
  end.

Definition release (self : Audio) (c : call) (rt : runtime)
  : result value * runtime :=
  match bind1 timeout_only_params c with
  | Raise e => (Raise e, rt)
  | Ok timeout => spawn (release_async self (Call [] [("timeout", timeout)])) rt
  end.

Definition seek_async (self : Audio) (c : call) : result (Coro value) :=
  match bind2 seek_params c with
  | Raise e => Raise e
  | Ok (position, timeout) =>
      Ok (await _ <- _invoke_method_async self
                       (Call [VStr "seek"; VDict [("position", position)]]
                             [("timeout", timeout)]) ;;
          coro_ret VNone)
  end.

Definition seek (self : Audio) (c : call) (rt : runtime)
  : result value * runtime :=
  match bind2 seek_params c with
  | Raise e => (Raise e, rt)
  | Ok (position, timeout) =>
      spawn (seek_async self (Call [position] [("timeout", timeout)])) rt
  end.

Definition get_duration_async (self : Audio) (c : call)
  : result (Coro value) :=
  match bind1 timeout_only_params c with
  | Raise e => Raise e
  | Ok timeout =>
      Ok (_invoke_method_async self
            (Call [VStr "get_duration"] [("timeout", timeout)]))
  end.

Definition get_current_position_async (self : Audio) (c : call)
  : result (Coro value) :=
  match bind1 timeout_only_params c with
  | Raise e => Raise e
  | Ok timeout =>
      Ok (_invoke_method_async self
            (Call [VStr "get_current_position"] [("timeout", timeout)]))
  end.

(** The callables the class body defines, by name and in source order. *)
Inductive member :=
| HookDef (f : host -> Audio -> result unit * Audio)
| AsyncDef (ps : list param) (f : Audio -> call -> result (Coro value))
| Def (ps : list param)
      (f : Audio -> call -> runtime -> result value * runtime).

Definition class_body : list (string * member) :=
  [ ("before_update", HookDef before_update);
    ("play_async", AsyncDef play_params play_async);
    ("play", Def play_params play);
    ("pause_async", AsyncDef timeout_only_params pause_async);
    ("pause", Def timeout_only_params pause);
    ("resume_async", AsyncDef timeout_only_params resume_async);
    ("resume", Def timeout_only_params resume);
    ("release_async", AsyncDef timeout_only_params release_async);
    ("release", Def timeout_only_params release);
    ("seek_async", AsyncDef seek_params seek_async);
    ("seek", Def seek_params seek);
    ("get_duration_async", AsyncDef timeout_only_params get_duration_async);
    ("get_current_position_async",
     AsyncDef timeout_only_params get_current_position_async) ].

Fixpoint lookup {A} (k : string) (l : list (string * A)) : option A :=
  match l with
  | [] => None
  | (k', a) :: rest => if k' =? k then Some a else lookup k rest
  end.

Definition Audio_attr (name : string) : option member :=
  lookup name class_body.

(** The command each operation sends, for the position and the timeout
    its caller gave. *)
Definition command (name : string) (position : option value)
  (timeout : value) : call :=
  match position with
  | Some p =>
      Call [VStr name; VDict [("position", p)]] [("timeout", timeout)]
  | None => Call [VStr name] [("timeout", timeout)]
  end.

(** ** The command channel *)

(** Modelled from the spec: the Command Channel of section 4.1 (flet's
    [_invoke_method_async] is not in the source).  The remote side answers
    after [latency] seconds, or never; the caller waits for at most
    [timeout] seconds, without limit when the timeout is [None] or
    absent, and fails with a timeout error when no answer came within
    that window. *)
Record remote := Remote { latency : option Q; answer : result value }.

Definition window (c : call) : result (option Q) :=
  match lookup "timeout" (c_kw c) with
  | None | Some VNone => Ok None
  | Some (VInt z) => Ok (Some (inject_Z z))
  | Some (VFloat q) => Ok (Some q)
  | Some _ => Raise (Exn TypeError "timeout must be a number or None")
  end.

Definition timed_channel (r : remote) : Channel :=
  fun _ c =>
    match window c with
    | Raise e => Completed (Raise e)
    | Ok None =>
        match latency r with
        | Some _ => Completed (answer r)
        | None => Suspended
        end
    | Ok (Some t) =>
        match latency r with
        | Some l =>
            if Qle_bool l t then Completed (answer r)
            else Completed (Raise (Exn TimeoutError "timeout waiting for reply"))
        | None => Completed (Raise (Exn TimeoutError "timeout waiting for reply"))
        end
    end.

(** ** The operations and their forms *)

Inductive operation :=
| Play | Pause | Resume | Release | Seek | GetDuration | GetCurrentPosition.

Definition op_name (o : operation) : string :=
  match o with
  | Play => "play"
  | Pause => "pause"
  | Resume => "resume"
  | Release => "release"
  | Seek => "seek"
  | GetDuration => "get_duration"
  | GetCurrentPosition => "get_current_position"
  end.

Definition params_of (o : operation) : list param :=
  match o with
  | Play => play_params
  | Seek => seek_params
  | _ => timeout_only_params
  end.

Definition is_query (o : operation) : bool :=
  match o with
  | GetDuration | GetCurrentPosition => true
  | _ => false
  end.

(** The suspending form, [<name>_async]. *)
Definition suspending_form (o : operation)
  : Audio -> call -> result (Coro value) :=
  match o with
  | Play => play_async
  | Pause => pause_async
  | Resume => resume_async
  | Release => release_async
  | Seek => seek_async
  | GetDuration => get_duration_async
  | GetCurrentPosition => get_current_position_async
  end.

(** The fire-and-forget form, [<name>], where the class has one. *)
Definition fire_and_forget_form (o : operation)
  : option (Audio -> call -> runtime -> result value * runtime) :=
  match o with
  | Play => Some play
  | Pause => Some pause
  | Resume => Some resume
  | Release => Some release
  | Seek => Some seek
  | GetDuration | GetCurrentPosition => None
  end.

(** A source field that is empty or absent, and one that is provided. *)
Definition empty_or_absent (v : option string) : Prop :=
  v = None \/ v = Some "".

Definition provided (v : option string) : Prop :=
  exists s, v = Some s /\ s <> "".

(** The call a fire-and-forget form makes of its suspending form. *)
Definition inner_call (o : operation) (p t : value) : call :=
  match o with
  | Play | Seek => Call [p] [("timeout", t)]
  | _ => Call [] [("timeout", t)]
  end.

(** A control operation drops the reply and returns [None]; a query
    returns the reply. *)
Definition void (out : outcome value) : outcome value :=
  match out with
  | Completed (Ok _) => Completed (Ok VNone)
  | other => other
  end.

Definition reply_of (o : operation) (out : outcome value) : outcome value :=
  if is_query o then out else void out.

(** The coroutine sends the one command [cmd] to [self] and ends with what
    the channel gives for it. *)
Definition sends (o : operation) (coro : Coro value) (self : Audio)
  (cmd : call) : Prop :=
  forall ch log,
    coro ch log = (reply_of o (ch self cmd), (log ++ [Invocation self cmd])%list).

Definition keywords (c : call) : list string := map fst (c_kw c).

(** The timeout was left out of the call: no keyword of that name, and too
    few positional arguments to reach the parameter. *)
Definition timeout_omitted (ps : list param) (c : call) : Prop :=
  ~ In "timeout" (keywords c) /\
  (List.length (c_pos c) < List.length ps)%nat.

(** The state of the parameter named [k] in a list of slots: absent, empty
    or filled. *)
Definition slot_get (sl : list slot) (k : string) : option (option value) :=
  lookup k (map (fun ps : slot => (p_name (fst ps), snd ps)) sl).

(** A call that fits a signature: no more positional arguments than
    parameters; no keyword given twice; every keyword names a parameter
    that no positional argument has filled; every parameter without a
    default is given, by position or by keyword. *)
Definition well_formed_call (ps : list param) (c : call) : Prop :=
  (List.length (c_pos c) <= List.length ps)%nat /\
  NoDup (keywords c) /\
  (forall k, In k (keywords c) ->
     exists i, nth_error (map p_name ps) i = Some k /\
               (List.length (c_pos c) <= i)%nat) /\
  (forall i p, nth_error ps i = Some p -> p_default p = None ->
     (i < List.length (c_pos c))%nat \/ In (p_name p) (keywords c)).

(** The shapes of call the three signatures of the class admit: for
    [(timeout=10)], for [(position, timeout=10)] and for
    [(position=Duration(), timeout=10)]. *)
Definition timeout_only_shape (c : call) : Prop :=
  c = Call [] [] \/
  exists t, c = Call [t] [] \/ c = Call [] [("timeout", t)].

Definition seek_shape (c : call) : Prop :=
  exists p t,
    c = Call [p] [] \/
    c = Call [p; t] [] \/
    c = Call [p] [("timeout", t)] \/
    c = Call [] [("position", p)] \/
    c = Call [] [("position", p); ("timeout", t)] \/
    c = Call [] [("timeout", t); ("position", p)].

Definition play_shape (c : call) : Prop :=
  c = Call [] [] \/
  (exists t, c = Call [] [("timeout", t)]) \/
  seek_shape c.

Definition call_shape (o : operation) (c : call) : Prop :=
  match o with
  | Play => play_shape c
  | Seek => seek_shape c
  | _ => timeout_only_shape c
  end.

(** The state in which the loop leaves a task whose coroutine ended with
    [out] (as [run_tasks] sets it). *)
Definition task_of_outcome (out : outcome value) : task_state :=
  match out with
  | Completed r => Finished r
  | Suspended => Blocked
  end.

(** A caller that makes fire-and-forget calls one after the other and
    goes on whatever each call returns or raises. *)
Definition fire (o : operation) (self : Audio) (c : call) (rt : runtime)
  : runtime :=
  match fire_and_forget_form o with
  | Some f => snd (f self c rt)
  | None => rt
  end.

Fixpoint fire_all (l : list (operation * call)) (self : Audio)
  (rt : runtime) : runtime :=
  match l with
  | [] => rt
  | (o, c) :: rest => fire_all rest self (fire o self c rt)
  end.

(** What a fire-and-forget call adds to the tasks of the loop, as it
    stands once the loop has run, and the failure that the collection of
    that task reports. *)
Definition background_task (o : operation) (self : Audio) (c : call)
  (ch : Channel) : list task_state :=
  match suspending_form o self c with
  | Ok coro => [task_of_outcome (fst (run_coro coro ch))]
  | Raise _ => []
  end.

Definition background_failure (o : operation) (self : Audio) (c : call)
  (ch : Channel) : list exn :=
  match suspending_form o self c with
  | Ok coro =>
      match fst (run_coro coro ch) with
      | Completed (Raise e) => [e]
      | _ => []
      end
  | Raise _ => []
  end.

(** The exception that the collection of the task of index [i] reports,
    and the exceptions held by the finished tasks of a table. *)
Definition failure_at (i : nat) (ts : list task_state) : list exn :=
  match nth_error ts i with
  | Some (Finished (Raise e)) => [e]
  | _ => []
  end.

Definition failures_of (ts : list task_state) : list exn :=
  flat_map
    (fun t => match t with Finished (Raise e) => [e] | _ => [] end) ts.

(** A channel on which every command fails, with a timeout error that
    names the command. *)
Definition failing_channel : Channel :=
  fun _ c =>
    match c_pos c with
    | VStr n :: _ => Completed (Raise (Exn TimeoutError n))
    | _ => Suspended
    end.

(** An instance with a source, for the worked calls below. *)
Definition a_mp3 : Audio :=
  mkAudio (Some "a.mp3") None false 1 0 1 RELEASE None None None None None.

(** * Facts *)

(** ** Argument binding *)

Section BindingFacts.

Lemma fill_keyword_raises sl k v e :
  fill_keyword sl k v = Raise e -> exn_cls e = TypeError.
Proof.
  revert e; induction sl as [|[p s] rest IH]; intros e; simpl.
  - intros H; inversion H; reflexivity.
  - destruct (p_name p =? k).
    + destruct s; intros H; inversion H; reflexivity.
    + destruct (fill_keyword rest k v) eqn:E; intros H; inversion H; subst.
      now apply IH.
Qed.

Lemma fill_keyword_ok sl k v sl' :
  fill_keyword sl k v = Ok sl' ->
  map fst sl' = map fst sl /\
  slot_get sl k = Some None /\
  slot_get sl' k = Some (Some v) /\
  (forall k', k' <> k -> slot_get sl' k' = slot_get sl k').
Proof.
  revert sl'; induction sl as [|[p s] rest IH]; intros sl'; simpl.
  - discriminate.
  - unfold slot_get; simpl.
    destruct (p_name p =? k) eqn:Ek.
    + destruct s; [discriminate|]. intros H; inversion H; subst; clear H.
      simpl. rewrite Ek. repeat split; auto.
      intros k' Hne. apply String.eqb_eq in Ek. subst k.
      destruct (p_name p =? k') eqn:Ek'; auto.
      apply String.eqb_eq in Ek'. congruence.
    + destruct (fill_keyword rest k v) as [rest'|] eqn:E; [|discriminate].
      intros H; inversion H; subst; clear H.
      destruct (IH rest' eq_refl) as (Hm & Hk & Hk' & Ho).
      simpl. rewrite Ek. fold (slot_get rest k) (slot_get rest' k).
      repeat split; auto.
      * now rewrite Hm.
      * intros k' Hne. destruct (p_name p =? k'); auto.
        now apply Ho.
Qed.

Lemma fill_keywords_raises kws : forall sl e,
  fill_keywords sl kws = Raise e -> exn_cls e = TypeError.
Proof.
  induction kws as [|[k v] rest IH]; intros sl e; simpl.
  - discriminate.
  - destruct (fill_keyword sl k v) eqn:E.
    + apply IH.
    + intros H; inversion H; subst. eapply fill_keyword_raises; eauto.
Qed.

Lemma fill_keywords_ok kws : forall sl sl',
  fill_keywords sl kws = Ok sl' ->
  map fst sl' = map fst sl /\
  (forall k, ~ In k (map fst kws) -> slot_get sl' k = slot_get sl k) /\
  (forall k v, In (k, v) kws -> slot_get sl' k = Some (Some v)) /\
  (forall k v, slot_get sl k = Some (Some v) -> slot_get sl' k = Some (Some v)).
Proof.
  induction kws as [|[k0 v0] rest IH]; intros sl sl'; simpl.
  - intros H; inversion H; subst. repeat split; auto. intros k v [].
  - destruct (fill_keyword sl k0 v0) as [sl1|] eqn:E; [|discriminate].
    intros H. destruct (fill_keyword_ok _ _ _ _ E) as (Hm & Hk & Hk' & Ho).
    destruct (IH _ _ H) as (Jm & Jout & Jin & Jkeep).
    assert (Hkeep : forall k v, slot_get sl k = Some (Some v) ->
                                slot_get sl' k = Some (Some v)).
    { intros k v Hg. apply Jkeep. rewrite Ho; auto.
      intros ->. rewrite Hk in Hg. discriminate. }
    repeat split; auto.
    + now rewrite Jm.
    + intros k Hn. rewrite Jout by tauto. apply Ho. intros ->. tauto.
    + intros k v [Heq|Hin].
      * inversion Heq; subst. now apply Jkeep.
      * eapply Jin; eauto.
Qed.

Lemma apply_defaults_raises sl : forall e,
  apply_defaults sl = Raise e -> exn_cls e = TypeError.
Proof.
  induction sl as [|[p s] rest IH]; intros e; simpl.
  - discriminate.
  - destruct (match s with Some v => Some v | None => p_default p end).
    + destruct (apply_defaults rest); intros H; inversion H; subst; auto.
    + intros H; inversion H; reflexivity.
Qed.

Lemma bind_args_raises ps c e :
  bind_args ps c = Raise e -> exn_cls e = TypeError.
Proof.
  unfold bind_args.
  destruct (fill_positional ps (c_pos c)) as [sl|].
  - destruct (fill_keywords sl (c_kw c)) eqn:E.
    + apply apply_defaults_raises.
    + intros H; inversion H; subst. eapply fill_keywords_raises; eauto.
  - intros H; inversion H; reflexivity.
Qed.

Lemma bind1_raises ps c e : bind1 ps c = Raise e -> exn_cls e = TypeError.
Proof.
  unfold bind1. destruct (bind_args ps c) as [vs|e'] eqn:E.
  - destruct vs as [|v [|w vs]]; intros H; inversion H; reflexivity.
  - intros H; inversion H; subst. eapply bind_args_raises; eauto.
Qed.

Lemma bind2_raises ps c e : bind2 ps c = Raise e -> exn_cls e = TypeError.
Proof.
  unfold bind2. destruct (bind_args ps c) as [vs|e'] eqn:E.
  - destruct vs as [|v [|w [|x vs]]]; intros H; inversion H; reflexivity.
  - intros H; inversion H; subst. eapply bind_args_raises; eauto.
Qed.


Ltac case_keywords E :=
  match goal with
  | |- context [fill_keywords ?sl ?kw] =>
      destruct (fill_keywords sl kw) as [?sl'|] eqn:E; [|discriminate]
  end.

Lemma slots_one (sl : list slot) p :
  map fst sl = [p] -> exists s, sl = [(p, s)].
Proof.
  destruct sl as [|[q s] [|x rest]]; simpl; intros H; inversion H; subst.
  now exists s.
Qed.

Lemma slots_two (sl : list slot) p1 p2 :
  map fst sl = [p1; p2] -> exists s1 s2, sl = [(p1, s1); (p2, s2)].
Proof.
  destruct sl as [|[q1 s1] [|[q2 s2] [|x rest]]]; simpl; intros H;
    inversion H; subst.
  now exists s1, s2.
Qed.

Lemma slot_get_one n d s : slot_get [(Param n d, s)] n = Some s.
Proof. unfold slot_get; simpl. now rewrite String.eqb_refl. Qed.

Lemma slot_get_fst n1 d1 s1 n2 d2 s2 :
  slot_get [(Param n1 d1, s1); (Param n2 d2, s2)] n1 = Some s1.
Proof. unfold slot_get; simpl. now rewrite String.eqb_refl. Qed.

Lemma slot_get_snd n1 d1 s1 n2 d2 s2 :
  n1 <> n2 ->
  slot_get [(Param n1 d1, s1); (Param n2 d2, s2)] n2 = Some s2.
Proof.
  intros Hne. unfold slot_get; simpl.
  apply String.eqb_neq in Hne. now rewrite Hne, String.eqb_refl.
Qed.

(** A function of the one parameter [n]: where the bound value comes
    from. *)
Lemma bind_args_one n d c vs :
  bind_args [Param n d] c = Ok vs ->
  exists t, vs = [t] /\
    (forall v, In (n, v) (c_kw c) -> t = v) /\
    (forall v, nth_error (c_pos c) 0 = Some v -> t = v) /\
    (c_pos c = [] -> ~ In n (keywords c) -> d = Some t).
Proof.
  destruct c as [pos kw]; unfold bind_args, keywords; simpl c_pos; simpl c_kw.
  destruct pos as [|a [|b rest]]; simpl; try discriminate.
  all: case_keywords E;
    destruct (fill_keywords_ok _ _ _ E) as (Hm & Hout & Hin & Hkeep);
    simpl in Hm; destruct (slots_one _ _ Hm) as [s ->];
    specialize (Hout n); specialize (Hin n); specialize (Hkeep n);
    rewrite !slot_get_one in *.
  - destruct s as [t|]; simpl.
    + intros H; inversion H; subst. exists t. repeat split; auto.
      * intros v Hv. specialize (Hin _ Hv). congruence.
      * discriminate.
      * intros _ Hn. specialize (Hout Hn). discriminate.
    + destruct d as [t|]; simpl; [|discriminate].
      intros H; inversion H; subst. exists t. repeat split; auto.
      * intros v Hv. specialize (Hin _ Hv). discriminate.
      * discriminate.
  - specialize (Hkeep a eq_refl). inversion Hkeep; subst. simpl.
    intros H; inversion H; subst. exists a. repeat split; auto.
    + intros v Hv. specialize (Hin _ Hv). congruence.
    + intros v Hv; inversion Hv; reflexivity.
    + discriminate.
Qed.

(** A function of the two parameters [n1] and [n2]. *)
Lemma bind_args_two n1 d1 n2 d2 c vs :
  n1 <> n2 ->
  bind_args [Param n1 d1; Param n2 d2] c = Ok vs ->
  exists p t, vs = [p; t] /\
    (forall v, In (n1, v) (c_kw c) -> p = v) /\
    (forall v, In (n2, v) (c_kw c) -> t = v) /\
    (forall v, nth_error (c_pos c) 0 = Some v -> p = v) /\
    (forall v, nth_error (c_pos c) 1 = Some v -> t = v) /\
    (c_pos c = [] -> ~ In n1 (keywords c) -> d1 = Some p) /\
    ((List.length (c_pos c) <= 1)%nat -> ~ In n2 (keywords c) -> d2 = Some t).
Proof.
  intros Hne.
  destruct c as [pos kw]; unfold bind_args, keywords; simpl c_pos; simpl c_kw.
  destruct pos as [|a [|b [|x rest]]]; simpl; try discriminate.
  all: case_keywords E;
    destruct (fill_keywords_ok _ _ _ E) as (Hm & Hout & Hin & Hkeep);
    simpl in Hm; destruct (slots_two _ _ _ Hm) as (s1 & s2 & ->);
    pose proof (Hout n1) as Hout1; pose proof (Hout n2) as Hout2;
    pose proof (Hin n1) as Hin1; pose proof (Hin n2) as Hin2;
    pose proof (Hkeep n1) as Hkeep1; pose proof (Hkeep n2) as Hkeep2;
    clear Hout Hin Hkeep;
    rewrite !slot_get_fst in *; rewrite !slot_get_snd in * by assumption;
    simpl.
  - destruct s1 as [p|]; [|destruct d1 as [p|]; [|discriminate]];
      (destruct s2 as [t|]; [|destruct d2 as [t|]; [|discriminate]]);
      intros H; inversion H; subst; exists p, t; repeat split; auto;
      try discriminate.
    all: try (intros v Hv; specialize (Hin1 _ Hv); congruence).
    all: try (intros v Hv; specialize (Hin2 _ Hv); congruence).
    all: try (intros _ Hn; specialize (Hout1 Hn); congruence).
    all: try (intros _ Hn; specialize (Hout2 Hn); congruence).
  - specialize (Hkeep1 a eq_refl). inversion Hkeep1; subst.
    destruct s2 as [t|]; [|destruct d2 as [t|]; [|discriminate]];
      intros H; inversion H; subst; exists a, t; repeat split; auto;
      try discriminate.
    all: try (intros v Hv; specialize (Hin1 _ Hv); congruence).
    all: try (intros v Hv; specialize (Hin2 _ Hv); congruence).
    all: try (intros v Hv; inversion Hv; reflexivity).
    all: try (intros _ Hn; specialize (Hout2 Hn); congruence).
  - specialize (Hkeep1 a eq_refl). inversion Hkeep1; subst.
    specialize (Hkeep2 b eq_refl). inversion Hkeep2; subst.
    intros H; inversion H; subst; exists a, b; repeat split; auto;
      try discriminate.
    all: try (intros v Hv; specialize (Hin1 _ Hv); congruence).
    all: try (intros v Hv; specialize (Hin2 _ Hv); congruence).
    all: try (intros v Hv; inversion Hv; reflexivity).
    all: try (simpl; intros; lia).
Qed.

End BindingFacts.

(** ** The class body *)

Section ClassFacts.

Lemma lookup_In {A} k (l : list (string * A)) a :
  lookup k l = Some a -> In (k, a) l.
Proof.
  induction l as [|[k' a'] rest IH]; simpl; [discriminate|].
  destruct (k' =? k) eqn:E.
  - apply String.eqb_eq in E. intros H; inversion H; subst. now left.
  - intros H. right. now apply IH.
Qed.

(** Every coroutine function of the class is the suspending form of an
    operation. *)
Lemma async_member name ps f :
  Audio_attr name = Some (AsyncDef ps f) ->
  exists o, name = (op_name o ++ "_async") /\ ps = params_of o /\
            f = suspending_form o.
Proof.
  intros H. apply lookup_In in H. simpl in H.
  repeat (destruct H as [H|H]; [inversion H; subst; clear H|]);
    try contradiction.
  - now exists Play.
  - now exists Pause.
  - now exists Resume.
  - now exists Release.
  - now exists Seek.
  - now exists GetDuration.
  - now exists GetCurrentPosition.
Qed.

(** Every plain method of the class other than the hook is the
    fire-and-forget form of an operation. *)
Lemma def_member name ps f :
  Audio_attr name = Some (Def ps f) ->
  exists o, name = op_name o /\ ps = params_of o /\
            fire_and_forget_form o = Some f /\ is_query o = false.
Proof.
  intros H. apply lookup_In in H. simpl in H.
  repeat (destruct H as [H|H]; [inversion H; subst; clear H|]);
    try contradiction.
  - now exists Play.
  - now exists Pause.
  - now exists Resume.
  - now exists Release.
  - now exists Seek.
Qed.

Lemma forms_in_class o :
  Audio_attr (op_name o ++ "_async")
    = Some (AsyncDef (params_of o) (suspending_form o)) /\
  Audio_attr (op_name o)
    = option_map (Def (params_of o)) (fire_and_forget_form o).
Proof. destruct o; split; reflexivity. Qed.

End ClassFacts.

(** ** The two forms of an operation *)

Section FormFacts.

Variable self : Audio.

Lemma invoke_sends_void o cmd :
  is_query o = false ->
  sends o (await _ <- _invoke_method_async self cmd ;; coro_ret VNone)
    self cmd.
Proof.
  intros Hq ch log. unfold reply_of. rewrite Hq.
  unfold coro_bind, _invoke_method_async, coro_ret, void.
  destruct (ch self cmd) as [[v|e]|]; reflexivity.
Qed.

Lemma invoke_sends_query o cmd :
  is_query o = true ->
  sends o (_invoke_method_async self cmd) self cmd.
Proof.
  intros Hq ch log. unfold reply_of. rewrite Hq. reflexivity.
Qed.

Lemma suspending_raises o c e :
  suspending_form o self c = Raise e -> exn_cls e = TypeError.
Proof.
  destruct o; simpl;
    unfold play_async, pause_async, resume_async, release_async, seek_async,
      get_duration_async, get_current_position_async.
  all: try (destruct (bind1 timeout_only_params c) as [t|e'] eqn:B;
            [discriminate|]; intros H; inversion H; subst;
            eapply bind1_raises; eauto).
  all: match goal with
       | |- context [bind2 ?ps ?c0] =>
           destruct (bind2 ps c0) as [[p t]|e'] eqn:B;
           [discriminate|]; intros H; inversion H; subst;
           eapply bind2_raises; eauto
       end.
Qed.

(** What a successful call of a suspending form has bound, and what its
    coroutine sends. *)
Lemma suspending_ok o c coro :
  suspending_form o self c = Ok coro ->
  exists pos t,
    sends o coro self (command (op_name o) pos t) /\
    (forall v, In ("timeout", v) (c_kw c) -> t = v) /\
    (forall v, nth_error (c_pos c) (List.length (params_of o) - 1) = Some v ->
               t = v) /\
    (timeout_omitted (params_of o) c -> t = VInt 10) /\
    match o with
    | Play | Seek =>
        exists p, pos = Some p /\
          (forall v, In ("position", v) (c_kw c) -> p = v) /\
          (forall v, nth_error (c_pos c) 0 = Some v -> p = v) /\
          (c_pos c = [] -> ~ In "position" (keywords c) ->
           o = Play /\ p = VDuration Duration_default)
    | _ => pos = None
    end.
Proof.
  assert (Hpt : "position" <> "timeout") by discriminate.
  destruct o; simpl;
    unfold play_async, pause_async, resume_async, release_async, seek_async,
      get_duration_async, get_current_position_async, bind1, bind2,
      timeout_omitted, play_params, seek_params, timeout_only_params,
      timeout_param.
  all: match goal with
       | |- context [bind_args ?ps ?c0] =>
           destruct (bind_args ps c0) as [vs|e'] eqn:B; [|discriminate]
       end.
  all: try (apply bind_args_two in B; [|exact Hpt];
            destruct B as (p & t & -> & Kp & Kt & Pp & Pt & Dp & Dt);
            intros H; inversion H; subst; clear H;
            exists (Some p), t; split;
            [ apply invoke_sends_void; reflexivity
            | split; [exact Kt|]; split; [exact Pt|]; split;
              [ intros [Hk Hl]; simpl in Hl;
                assert (Hd : Some (VInt 10) = Some t)
                  by (apply Dt; [lia|exact Hk]);
                inversion Hd; reflexivity
              | exists p; split; [reflexivity|]; split; [exact Kp|]; split;
                [exact Pp|]; intros Hpos Hk; specialize (Dp Hpos Hk);
                try discriminate; inversion Dp; split; reflexivity ] ]).
  all: apply bind_args_one in B;
       destruct B as (t & -> & Kt & Pt & Dt);
       intros H; inversion H; subst; clear H;
       exists None, t; split;
       [ first [ apply invoke_sends_void; reflexivity
               | apply invoke_sends_query; reflexivity ]
       | split; [exact Kt|]; split; [exact Pt|]; split;
         [ intros [Hk Hl]; simpl in Hl;
           assert (Hd : Some (VInt 10) = Some t)
             by (apply Dt; [destruct (c_pos c); [reflexivity|simpl in Hl; lia]
                           |exact Hk]);
           inversion Hd; reflexivity
         | reflexivity ] ].
Qed.

Lemma inner_call_accepted o p t :
  exists coro,
    suspending_form o self (inner_call o p t) = Ok coro /\
    sends o coro self
      (command (op_name o)
         (match o with Play | Seek => Some p | _ => None end) t).
Proof.
  destruct o; simpl; eexists; (split; [reflexivity|]).
  all: first [ apply invoke_sends_void; reflexivity
             | apply invoke_sends_query; reflexivity ].
Qed.

(** A fire-and-forget form binds its arguments as the suspending form
    does, and hands the coroutine of the suspending form to the loop. *)
Lemma fire_and_forget_spec o f c rt :
  fire_and_forget_form o = Some f ->
  f self c rt =
    match suspending_form o self c with
    | Raise e => (Raise e, rt)
    | Ok coro =>
        if running rt then
          (Ok VNone,
           Runtime true (tasks rt ++ [Scheduled coro])%list
             (sent rt) (reported rt))
        else (Raise (Exn RuntimeError "no running event loop"), rt)
    end.
Proof.
  destruct o; simpl; intros H; inversion H; subst; clear H.
  all: unfold play, pause, resume, release, seek,
         play_async, pause_async, resume_async, release_async, seek_async.
  all: try (destruct (bind1 timeout_only_params c) as [t|e] eqn:B;
            [|reflexivity]; unfold spawn, create_task; simpl;
            destruct (running rt); reflexivity).
  all: match goal with
       | |- context [bind2 ?ps ?c0] =>
           destruct (bind2 ps c0) as [[p t]|e] eqn:B;
           [|reflexivity]; unfold spawn, create_task; simpl;
           destruct (running rt); reflexivity
       end.
Qed.

End FormFacts.

(** ** The event loop *)

Section LoopFacts.

Lemma run_tasks_app ch ts1 : forall ts2 log,
  run_tasks ch (ts1 ++ ts2) log =
    let '(a, l1) := run_tasks ch ts1 log in
    let '(b, l2) := run_tasks ch ts2 l1 in
    ((a ++ b)%list, l2).
Proof.
  induction ts1 as [|t rest IH]; intros ts2 log; simpl.
  - destruct (run_tasks ch ts2 log); reflexivity.
  - destruct t; simpl.
    + destruct (coro ch log) as [o l]. rewrite IH.
      destruct (run_tasks ch rest l) as [a l1].
      destruct (run_tasks ch ts2 l1); reflexivity.
    + rewrite IH. destruct (run_tasks ch rest log) as [a l1].
      destruct (run_tasks ch ts2 l1); reflexivity.
    + rewrite IH. destruct (run_tasks ch rest log) as [a l1].
      destruct (run_tasks ch ts2 l1); reflexivity.
    + rewrite IH. destruct (run_tasks ch rest log) as [a l1].
      destruct (run_tasks ch ts2 l1); reflexivity.
Qed.

Lemma run_tasks_length ch ts : forall log,
  List.length (fst (run_tasks ch ts log)) = List.length ts.
Proof.
  induction ts as [|t rest IH]; intros log; simpl; [reflexivity|].
  destruct t; simpl.
  - destruct (coro ch log) as [o l]. specialize (IH l).
    destruct (run_tasks ch rest l); simpl in *. now rewrite IH.
  - specialize (IH log). destruct (run_tasks ch rest log); simpl in *.
    now rewrite IH.
  - specialize (IH log). destruct (run_tasks ch rest log); simpl in *.
    now rewrite IH.
  - specialize (IH log). destruct (run_tasks ch rest log); simpl in *.
    now rewrite IH.
Qed.

Lemma run_ready_length ch rt :
  List.length (tasks (run_ready ch rt)) = List.length (tasks rt).
Proof.
  unfold run_ready. pose proof (run_tasks_length ch (tasks rt) (sent rt)).
  destruct (run_tasks ch (tasks rt) (sent rt)); assumption.
Qed.

Lemma reported_run_ready ch rt : reported (run_ready ch rt) = reported rt.
Proof.
  unfold run_ready. destruct (run_tasks ch (tasks rt) (sent rt)); reflexivity.
Qed.

Lemma tasks_collect_task i rt :
  tasks (collect_task i rt) = fst (collect_at i (tasks rt)).
Proof. unfold collect_task. destruct (collect_at i (tasks rt)); reflexivity. Qed.

Lemma reported_collect_task i rt :
  reported (collect_task i rt)
  = (reported rt ++ snd (collect_at i (tasks rt)))%list.
Proof. unfold collect_task. destruct (collect_at i (tasks rt)); reflexivity. Qed.

Lemma collect_at_length ts : forall i,
  List.length (fst (collect_at i ts)) = List.length ts.
Proof.
  induction ts as [|t rest IH]; intros [|j]; simpl; try reflexivity.
  - destruct t; reflexivity.
  - specialize (IH j). destruct (collect_at j rest); simpl in *.
    now rewrite IH.
Qed.

(** Collecting a task inside the first part of a table, the first task of
    the second part, or none. *)
Lemma collect_at_app_l ts ts2 : forall i,
  (i < List.length ts)%nat ->
  collect_at i (ts ++ ts2)
  = ((fst (collect_at i ts) ++ ts2)%list, snd (collect_at i ts)).
Proof.
  induction ts as [|t rest IH]; intros [|j] Hl; simpl in *; try lia.
  - destruct t; reflexivity.
  - rewrite (IH j) by lia. destruct (collect_at j rest); reflexivity.
Qed.

Lemma collect_at_app_r ts ts2 j :
  collect_at (List.length ts + j) (ts ++ ts2)
  = ((ts ++ fst (collect_at j ts2))%list, snd (collect_at j ts2)).
Proof.
  induction ts as [|t rest IH]; simpl.
  - destruct (collect_at j ts2); reflexivity.
  - rewrite IH. reflexivity.
Qed.

Lemma collect_at_out ts : forall i,
  (List.length ts <= i)%nat -> collect_at i ts = (ts, []).
Proof.
  induction ts as [|t rest IH]; intros [|j] Hl; simpl in *; try lia;
    try reflexivity.
  rewrite (IH j) by lia. reflexivity.
Qed.

(** A task is reported once: collecting it again changes nothing. *)
Lemma collect_at_again ts : forall i,
  collect_at i (fst (collect_at i ts)) = (fst (collect_at i ts), []).
Proof.
  induction ts as [|t rest IH]; intros [|j]; simpl; try reflexivity.
  - destruct t; reflexivity.
  - specialize (IH j). destruct (collect_at j rest) as [rest' es]; simpl in *.
    rewrite IH. reflexivity.
Qed.

Lemma collect_task_again i rt :
  collect_task i (collect_task i rt) = collect_task i rt.
Proof.
  unfold collect_task at 1. rewrite tasks_collect_task, collect_at_again.
  rewrite app_nil_r.
  unfold collect_task. destruct (collect_at i (tasks rt)); reflexivity.
Qed.

Lemma collect_in_length order : forall rt,
  List.length (tasks (collect_in order rt)) = List.length (tasks rt).
Proof.
  induction order as [|i rest IH]; intros rt; simpl; [reflexivity|].
  now rewrite IH, tasks_collect_task, collect_at_length.
Qed.

(** Collections that leave out the last task of a table go as they would
    without it. *)
Lemma collect_in_added order : forall rt1 rt2 st,
  tasks rt1 = (tasks rt2 ++ [st])%list ->
  reported rt1 = reported rt2 ->
  ~ In (List.length (tasks rt2)) order ->
  tasks (collect_in order rt1) = (tasks (collect_in order rt2) ++ [st])%list /\
  reported (collect_in order rt1) = reported (collect_in order rt2).
Proof.
  induction order as [|i rest IH]; intros rt1 rt2 st Ht Hr Hn; simpl.
  - split; assumption.
  - simpl in Hn. apply IH.
    + rewrite !tasks_collect_task, Ht.
      destruct (Nat.lt_ge_cases i (List.length (tasks rt2))) as [Hlt|Hge].
      * now rewrite collect_at_app_l.
      * rewrite !collect_at_out; [reflexivity|lia|].
        rewrite List.length_app. simpl. lia.
    + rewrite !reported_collect_task, Ht, Hr.
      destruct (Nat.lt_ge_cases i (List.length (tasks rt2))) as [Hlt|Hge].
      * now rewrite collect_at_app_l.
      * rewrite !collect_at_out; [reflexivity|lia|].
        rewrite List.length_app. simpl. lia.
    + rewrite tasks_collect_task, collect_at_length. tauto.
Qed.

(** Collecting the last task of a table, which ended with an exception:
    the exception is added to the log and the task is gone. *)
Lemma collect_task_last rt ts e :
  tasks rt = (ts ++ [Finished (Raise e)])%list ->
  tasks (collect_task (List.length ts) rt) = (ts ++ [Collected])%list /\
  reported (collect_task (List.length ts) rt) = (reported rt ++ [e])%list.
Proof.
  intros Ht. rewrite tasks_collect_task, reported_collect_task, Ht.
  rewrite <- (Nat.add_0_r (List.length ts)), collect_at_app_r.
  split; reflexivity.
Qed.

End LoopFacts.

(** ** Activation *)

Section ActivationFacts.

Lemma truthy_false v : truthy v = false <-> empty_or_absent v.
Proof.
  unfold truthy, empty_or_absent. destruct v as [s|].
  - rewrite negb_false_iff, String.eqb_eq. split.
    + intros ->. now right.
    + intros [H|H]; inversion H; reflexivity.
  - split; auto.
Qed.

Lemma truthy_true v : truthy v = true <-> provided v.
Proof.
  unfold truthy, provided. destruct v as [s|].
  - rewrite negb_true_iff, String.eqb_neq. split.
    + intros H. now exists s.
    + intros (s' & H & Hne). inversion H; subst. exact Hne.
  - split; [discriminate|]. intros (s & H & _). discriminate.
Qed.

Lemma truthy_or a b : truthy (or_ a b) = truthy a || truthy b.
Proof. unfold or_. destruct (truthy a) eqn:E; simpl; auto. Qed.

(** With [__debug__] off the assertion is not there: the hook of the class
    adds no failure to that of the base class. *)
Lemma before_update_without_debug h self :
  py_debug h = false ->
  fst (before_update h self) = fst (Service_before_update h self).
Proof.
  intros Hd. unfold before_update.
  destruct (Service_before_update h self) as [[[]|e] self']; simpl; auto.
  now rewrite Hd.
Qed.

End ActivationFacts.

(** ** Worked calls *)

Section Examples.

Example bind_play_no_argument :
  bind2 play_params (Call [] [])
  = Ok (VDuration Duration_default, VInt 10).
Proof. reflexivity. Qed.

Example bind_play_keyword_timeout :
  bind2 play_params (Call [] [("timeout", VNone)])
  = Ok (VDuration Duration_default, VNone).
Proof. reflexivity. Qed.

Example bind_seek_positional :
  bind2 seek_params (Call [VInt 1500; VInt 3] [])
  = Ok (VInt 1500, VInt 3).
Proof. reflexivity. Qed.

Example bind_seek_no_argument :
  bind2 seek_params (Call [] [])
  = Raise (Exn TypeError "missing a required positional argument").
Proof. reflexivity. Qed.

Example bind_pause_twice_given :
  bind1 timeout_only_params (Call [VInt 1] [("timeout", VInt 2)])
  = Raise (Exn TypeError "got multiple values for argument").
Proof. reflexivity. Qed.

Example bind_pause_unknown_keyword :
  bind1 timeout_only_params (Call [] [("position", VInt 2)])
  = Raise (Exn TypeError "got an unexpected keyword argument").
Proof. reflexivity. Qed.

Example before_update_default_instance :
  before_update flet_host Audio_default
  = (Raise (Exn AssertionError "either src or src_base64 must be provided"),
     Audio_default).
Proof. reflexivity. Qed.

Example before_update_empty_strings :
  fst (before_update flet_host
         (mkAudio (Some "") (Some "") false 1 0 1 RELEASE
            None None None None None))
  = Raise (Exn AssertionError "either src or src_base64 must be provided").
Proof. reflexivity. Qed.

Example before_update_with_src :
  before_update flet_host a_mp3 = (Ok tt, a_mp3).
Proof. reflexivity. Qed.

(** [play()] outside a running loop: [create_task] raises. *)
Example play_without_loop :
  play a_mp3 (Call [] []) (Runtime false [] [] [])
  = (Raise (Exn RuntimeError "no running event loop"),
     Runtime false [] [] []).
Proof. reflexivity. Qed.

(** [play(); pause(timeout=0.5)] against a remote side that never
    answers: both calls return, the loop sends both commands, both tasks
    end with the timeout error, and the collection of the two tasks, the
    second first, reports the two. *)
Example play_then_pause_timed_out :
  let never := timed_channel (Remote None (Ok VNone)) in
  let rt1 := snd (play a_mp3 (Call [] []) (Runtime true [] [] [])) in
  let r2 := pause a_mp3 (Call [] [("timeout", VFloat (1 # 2))]) rt1 in
  let done := collect_in [1; 0]%nat (run_ready never (snd r2)) in
  fst r2 = Ok VNone /\
  sent (snd r2) = [] /\
  map inv_call (sent done)
    = [command "play" (Some (VDuration Duration_default)) (VInt 10);
       command "pause" None (VFloat (1 # 2))] /\
  tasks done = [Collected; Collected] /\
  reported done
    = [Exn TimeoutError "timeout waiting for reply";
       Exn TimeoutError "timeout waiting for reply"].
Proof. repeat split; reflexivity. Qed.

(** [get_duration_async(timeout=None)] waits for a slow reply. *)
Example get_duration_waits :
  fst (await_call
         (get_duration_async a_mp3 (Call [] [("timeout", VNone)]))
         (timed_channel (Remote (Some 3600) (Ok (VDuration Duration_default)))))
  = Completed (Ok (VDuration Duration_default)).
Proof. reflexivity. Qed.

End Examples.

(** C1: [before_update] fails, with the assertion error whose message is
    "either src or src_base64 must be provided", exactly when [src] and
    [src_base64] are both empty or absent; when one of them is provided it
    returns; and assigning either field, whatever the value, returns: the
    check is made by [before_update] only.  (The interpreter runs its
    assertions and the hook of the base class returns, as flet's does.) *)
Theorem before_update_fails_iff_no_source (h : host) (self : Audio) :
  py_debug h = true ->
  Service_before_update h self = (Ok tt, self) ->
  (fst (before_update h self)
     = Raise (Exn AssertionError "either src or src_base64 must be provided")
   <-> empty_or_absent (src self) /\ empty_or_absent (src_base64 self)) /\
  (provided (src self) \/ provided (src_base64 self) ->
   fst (before_update h self) = Ok tt) /\
  (forall e, fst (before_update h self) = Raise e ->
     e = Exn AssertionError "either src or src_base64 must be provided") /\
  (forall v, fst (set_src v self) = Ok tt /\
             fst (set_src_base64 v self) = Ok tt).
Proof.
  intros Hd Hb. unfold before_update. rewrite Hb, Hd. simpl.
  rewrite truthy_or. rewrite <- !truthy_false, <- !truthy_true.
  destruct (truthy (src self)), (truthy (src_base64 self)); simpl;
    repeat split; auto; try discriminate; try tauto;
    try (intros [? ?]; discriminate);
    try (intros e H; inversion H; reflexivity).
  all: intros [H|H]; discriminate.
Qed.

Lemma before_update_fails_iff_no_source_witness :
  py_debug flet_host = true /\
  Service_before_update flet_host Audio_default = (Ok tt, Audio_default) /\
  fst (before_update flet_host Audio_default)
    = Raise (Exn AssertionError "either src or src_base64 must be provided").
Proof.
  split; [reflexivity|]. split; [reflexivity|].
  apply (before_update_fails_iff_no_source flet_host Audio_default);
    try reflexivity.
  split; left; reflexivity.
Defined.

(** C7: when [src] and [src_base64] are both set to non-empty values, the
    effective source is the one of [src_base64]. *)
Theorem effective_source_prefers_base64 (self : Audio) :
  provided (src self) -> provided (src_base64 self) ->
  exists b, src_base64 self = Some b /\
            effective_source self = Some (FromBase64 b).
Proof.
  intros _ Hb. pose proof (proj2 (truthy_true _) Hb) as Ht.
  destruct Hb as (b & Hb & _). exists b. split; [exact Hb|].
  unfold effective_source. rewrite Ht, Hb. reflexivity.
Qed.

Lemma effective_source_prefers_base64_witness :
  effective_source
    (mkAudio (Some "a.mp3") (Some "UklGRg==") false 1 0 1 RELEASE
       None None None None None)
  = Some (FromBase64 "UklGRg==").
Proof.
  destruct (effective_source_prefers_base64
              (mkAudio (Some "a.mp3") (Some "UklGRg==") false 1 0 1 RELEASE
                 None None None None None)) as (b & Hb & He).
  - exists "a.mp3". split; [reflexivity|discriminate].
  - exists "UklGRg==". split; [reflexivity|discriminate].
  - simpl in Hb. inversion Hb; subst. exact He.
Defined.

(** C8: [before_update] looks at [src] and [src_base64] only: with one of
    them provided it returns, whatever [volume], [balance] and
    [playback_rate] are (and whatever the other fields are). *)
Theorem before_update_ignores_numeric_fields (h : host)
  (s b : option string) (ap : bool) (vol bal rate : Q) (rm : ReleaseMode)
  (h1 h2 h3 h4 h5 : option handler) :
  Service_before_update h (mkAudio s b ap vol bal rate rm h1 h2 h3 h4 h5)
    = (Ok tt, mkAudio s b ap vol bal rate rm h1 h2 h3 h4 h5) ->
  provided s \/ provided b ->
  fst (before_update h (mkAudio s b ap vol bal rate rm h1 h2 h3 h4 h5))
    = Ok tt.
Proof.
  intros Hb Hp. unfold before_update. rewrite Hb. simpl.
  rewrite truthy_or. rewrite <- !truthy_true in Hp.
  unfold assert_. destruct (py_debug h); [|reflexivity].
  destruct Hp as [-> | ->]; [reflexivity|].
  now rewrite orb_true_r.
Qed.

Lemma before_update_ignores_numeric_fields_witness :
  fst (before_update flet_host
         (mkAudio (Some "a.mp3") None false 5 (-3) (-1) LOOP
            None None None None None)) = Ok tt.
Proof.
  apply (before_update_ignores_numeric_fields flet_host
           (Some "a.mp3") None false 5 (-3) (-1) LOOP None None None None None).
  - reflexivity.
  - left. exists "a.mp3". split; [reflexivity|discriminate].
Defined.

(** C10: [before_update] writes no field: if the hook of the base class
    leaves the instance as it is (flet's does nothing), the instance after
    [before_update] is the instance before it, field for field, whether
    the call returns or raises. *)
Theorem before_update_leaves_instance (h : host) (self : Audio) :
  snd (Service_before_update h self) = self ->
  snd (before_update h self) = self /\
  src (snd (before_update h self)) = src self /\
  src_base64 (snd (before_update h self)) = src_base64 self /\
  autoplay (snd (before_update h self)) = autoplay self /\
  volume (snd (before_update h self)) = volume self /\
  balance (snd (before_update h self)) = balance self /\
  playback_rate (snd (before_update h self)) = playback_rate self /\
  release_mode (snd (before_update h self)) = release_mode self /\
  on_loaded (snd (before_update h self)) = on_loaded self /\
  on_duration_change (snd (before_update h self)) = on_duration_change self /\
  on_state_change (snd (before_update h self)) = on_state_change self /\
  on_position_change (snd (before_update h self)) = on_position_change self /\
  on_seek_complete (snd (before_update h self)) = on_seek_complete self.
Proof.
  intros Hb.
  assert (H : snd (before_update h self) = self).
  { unfold before_update.
    destruct (Service_before_update h self) as [[[]|e] self']; exact Hb. }
  rewrite H. repeat split; reflexivity.
Qed.

Lemma before_update_leaves_instance_witness :
  snd (before_update flet_host Audio_default) = Audio_default /\
  fst (before_update flet_host Audio_default)
    = Raise (Exn AssertionError "either src or src_base64 must be provided").
Proof.
  split; [|reflexivity].
  apply (before_update_leaves_instance flet_host Audio_default).
  reflexivity.
Defined.

(** ** The command methods *)

Section CommandFacts.

Lemma suspending_accepts self o c vs :
  bind_args (params_of o) c = Ok vs ->
  exists coro, suspending_form o self c = Ok coro.
Proof.
  assert (Hpt : "position" <> "timeout") by discriminate.
  intros B.
  destruct o; simpl in *;
    unfold play_async, pause_async, resume_async, release_async, seek_async,
      get_duration_async, get_current_position_async, bind1, bind2;
    rewrite B.
  all: try (apply bind_args_two in B; [|exact Hpt];
            destruct B as (p & t & -> & _); eexists; reflexivity).
  all: apply bind_args_one in B; destruct B as (t & -> & _);
       eexists; reflexivity.
Qed.

Lemma void_raise out e :
  out = Completed (Raise e) -> void out = Completed (Raise e).
Proof. intros ->. reflexivity. Qed.

Lemma reply_of_raise o out e :
  out = Completed (Raise e) -> reply_of o out = Completed (Raise e).
Proof. intros ->. unfold reply_of. destruct (is_query o); reflexivity. Qed.

(** Running a loop to which one task was added: the earlier tasks end as
    they would have, and the new one ends with what its coroutine gives. *)
Lemma run_ready_added ch rt coro :
  let rt' := Runtime (running rt) (tasks rt ++ [Scheduled coro])%list
               (sent rt) (reported rt) in
  let out := coro ch (sent (run_ready ch rt)) in
  tasks (run_ready ch rt') =
    (tasks (run_ready ch rt) ++
     [match fst out with Completed r => Finished r | Suspended => Blocked end])%list
  /\ sent (run_ready ch rt') = snd out.
Proof.
  unfold run_ready; simpl. rewrite run_tasks_app.
  destruct (run_tasks ch (tasks rt) (sent rt)) as [a l1]; simpl.
  destruct (coro ch l1) as [out l2]; simpl. split; reflexivity.
Qed.

End CommandFacts.

(** C2: a fire-and-forget method ([play], [pause], [resume], [release],
    [seek]: the plain methods of the class) returns without sending or
    awaiting anything; what it raises, if anything, is never a command
    failure (only a malformed call or a missing event loop makes it
    raise); with a running loop and arguments that bind it returns [None],
    having queued one task.  The class has no handler of its own: when the
    loop runs that task, a failure of the command ends in the task, which
    holds the exception, and nowhere else; the tasks queued before end as
    they would have without it.  Whichever other tasks are collected
    before it, and in whatever order, their reports are what they would be
    without it; the collection of the task adds its exception to the log
    and drops the task; collecting it again reports nothing more. *)
Theorem fire_and_forget_contains_failure
  (name : string) (ps : list param)
  (f : Audio -> call -> runtime -> result value * runtime)
  (self : Audio) (c : call) (rt : runtime) :
  Audio_attr name = Some (Def ps f) ->
  sent (snd (f self c rt)) = sent rt /\
  reported (snd (f self c rt)) = reported rt /\
  (forall e, fst (f self c rt) = Raise e ->
     is_command_failure e = false /\ snd (f self c rt) = rt) /\
  (running rt = true -> (exists vs, bind_args ps c = Ok vs) ->
     fst (f self c rt) = Ok VNone) /\
  (forall v, fst (f self c rt) = Ok v ->
     v = VNone /\
     exists coro,
       snd (f self c rt)
         = Runtime true (tasks rt ++ [Scheduled coro])%list
             (sent rt) (reported rt) /\
       forall ch, exists st,
         tasks (run_ready ch (snd (f self c rt)))
           = (tasks (run_ready ch rt) ++ [st])%list /\
         (st = Blocked \/ exists res, st = Finished res) /\
         (forall e, (forall cmd, ch self cmd = Completed (Raise e)) ->
            st = Finished (Raise e)) /\
         (forall e, st = Finished (Raise e) ->
            forall order, ~ In (List.length (tasks rt)) order ->
              reported (collect_in order (run_ready ch (snd (f self c rt))))
                = reported (collect_in order (run_ready ch rt)) /\
              reported
                (collect_task (List.length (tasks rt))
                   (collect_in order (run_ready ch (snd (f self c rt)))))
                = (reported
                     (collect_in order (run_ready ch (snd (f self c rt))))
                   ++ [e])%list /\
              tasks
                (collect_task (List.length (tasks rt))
                   (collect_in order (run_ready ch (snd (f self c rt)))))
                = (tasks (collect_in order (run_ready ch rt))
                   ++ [Collected])%list /\
              collect_task (List.length (tasks rt))
                (collect_task (List.length (tasks rt))
                   (collect_in order (run_ready ch (snd (f self c rt)))))
              = collect_task (List.length (tasks rt))
                  (collect_in order (run_ready ch (snd (f self c rt)))))).
Proof.
  intros Hattr.
  apply def_member in Hattr as (o & -> & -> & Hf & Hq).
  rewrite (fire_and_forget_spec self o f c rt Hf).
  destruct (suspending_form o self c) as [coro|e0] eqn:S.
  - destruct (running rt) eqn:R; simpl.
    + split; [reflexivity|]. split; [reflexivity|].
      split; [discriminate|]. split; [reflexivity|].
      intros v H; inversion H; subst v; clear H.
      split; [reflexivity|].
      destruct (suspending_ok self o c coro S) as (pos & t & Hs & _).
      exists coro. split; [reflexivity|]. intros ch.
      pose proof (run_ready_added ch rt coro) as Hrun.
      rewrite R in Hrun. simpl in Hrun. destruct Hrun as [Hrun _].
      rewrite Hs in Hrun. simpl in Hrun.
      eexists. split; [exact Hrun|].
      unfold reply_of in *. rewrite Hq in *. split; [|split].
      * destruct (ch self (command (op_name o) pos t)) as [[w|e]|];
          simpl; eauto.
      * intros e He. rewrite He. reflexivity.
      * intros e He order Hn.
        rewrite He in Hrun.
        rewrite <- (run_ready_length ch rt) in Hn |- *.
        destruct (collect_in_added order
                    (run_ready ch
                       (Runtime true (tasks rt ++ [Scheduled coro])%list
                          (sent rt) (reported rt)))
                    (run_ready ch rt) _ Hrun) as [Ht Hr].
        { now rewrite !reported_run_ready. }
        { exact Hn. }
        rewrite <- (collect_in_length order (run_ready ch rt)).
        destruct (collect_task_last _ _ _ Ht) as [Ht' Hr'].
        split; [exact Hr|]. split; [exact Hr'|]. split; [exact Ht'|].
        apply collect_task_again.
    + split; [reflexivity|]. split; [reflexivity|].
      split; [|split; [discriminate|discriminate]].
      intros e H; inversion H; subst. split; reflexivity.
  - simpl. split; [reflexivity|]. split; [reflexivity|].
    split; [|split; [|discriminate]].
    + intros e H; inversion H; subst. split; [|reflexivity].
      unfold is_command_failure.
      now rewrite (suspending_raises self o c e S).
    + intros _ [vs B].
      destruct (suspending_accepts self o c vs B) as [coro S'].
      congruence.
Qed.

(** [play(timeout=2)] is queued, then [pause(timeout=0.5)] is called, and
    both commands fail: [pause] returns [None]; the collection of its
    task, the first to end, puts its exception first in the log. *)
Lemma fire_and_forget_contains_failure_witness :
  Audio_attr "pause" = Some (Def timeout_only_params pause) /\
  fst (pause a_mp3 (Call [] [("timeout", VFloat (1 # 2))])
         (snd (play a_mp3 (Call [] [("timeout", VInt 2)])
                 (Runtime true [] [] []))))
  = Ok VNone /\
  reported
    (collect_task 1
       (run_ready failing_channel
          (snd (pause a_mp3 (Call [] [("timeout", VFloat (1 # 2))])
                  (snd (play a_mp3 (Call [] [("timeout", VInt 2)])
                          (Runtime true [] [] [])))))))
  = [Exn TimeoutError "pause"].
Proof.
  split; [reflexivity|].
  destruct (fire_and_forget_contains_failure "pause" timeout_only_params
              pause a_mp3 (Call [] [("timeout", VFloat (1 # 2))])
              (snd (play a_mp3 (Call [] [("timeout", VInt 2)])
                      (Runtime true [] [] [])))
              eq_refl) as (_ & _ & _ & Hret & Hrun).
  split.
  - apply Hret; [reflexivity|]. eexists; reflexivity.
  - destruct (Hrun VNone eq_refl) as (_ & coro & _ & Hch).
    destruct (Hch failing_channel) as (st & Hst & _ & _ & Hcol).
    simpl in Hst. inversion Hst as [Hst'].
    destruct (Hcol _ (eq_sym Hst') [] (fun H => H)) as (_ & Hrep & _).
    exact Hrep.
Defined.

(** C3: the [position] of [play_async] (and of [play]) has the default
    [Duration()], whose length is zero: a call that gives no position
    sends that one; the [position] of [seek_async] (and of [seek]) has no
    default: a call that gives no position is a type error, and nothing is
    sent or queued. *)
Theorem play_position_defaults_seek_position_required
  (self : Audio) (c : call) (rt : runtime) :
  c_pos c = [] ->
  ~ In "position" (keywords c) ->
  in_microseconds Duration_default = 0%Z /\
  Audio_attr "play_async" = Some (AsyncDef play_params play_async) /\
  Audio_attr "play" = Some (Def play_params play) /\
  Audio_attr "seek_async" = Some (AsyncDef seek_params seek_async) /\
  Audio_attr "seek" = Some (Def seek_params seek) /\
  nth_error play_params 0
    = Some (Param "position" (Some (VDuration Duration_default))) /\
  nth_error seek_params 0 = Some (Param "position" None) /\
  (exists coro,
     play_async self (Call [] []) = Ok coro /\
     sends Play coro self
       (command "play" (Some (VDuration Duration_default)) (VInt 10))) /\
  (forall coro, play_async self c = Ok coro ->
     exists t,
       sends Play coro self
         (command "play" (Some (VDuration Duration_default)) t)) /\
  (exists e,
     exn_cls e = TypeError /\
     seek_async self c = Raise e /\
     seek self c rt = (Raise e, rt)).
Proof.
  intros Hpos Hkw. repeat split.
  - eexists. split; [reflexivity|]. apply invoke_sends_void. reflexivity.
  - intros coro S.
    destruct (suspending_ok self Play c coro S)
      as (pos & t & Hs & _ & _ & _ & p & -> & _ & _ & Hd).
    destruct (Hd Hpos Hkw) as [_ ->]. now exists t.
  - destruct (seek_async self c) as [coro|e] eqn:S.
    + destruct (suspending_ok self Seek c coro S)
        as (pos & t & Hs & _ & _ & _ & p & -> & _ & _ & Hd).
      destruct (Hd Hpos Hkw) as [Habs _]. discriminate.
    + exists e. split; [exact (suspending_raises self Seek c e S)|].
      split; [reflexivity|].
      rewrite (fire_and_forget_spec self Seek seek c rt eq_refl).
      simpl. now rewrite S.
Qed.

Lemma play_position_defaults_seek_position_required_witness :
  exists e,
    exn_cls e = TypeError /\
    seek_async Audio_default (Call [] [("timeout", VNone)]) = Raise e /\
    seek Audio_default (Call [] [("timeout", VNone)]) (Runtime true [] [] [])
      = (Raise e, Runtime true [] [] []).
Proof.
  apply (play_position_defaults_seek_position_required Audio_default
           (Call [] [("timeout", VNone)]) (Runtime true [] [] [])).
  - reflexivity.
  - simpl. intros [H|[]]. discriminate.
Defined.

(** C5: a suspending form (each coroutine function of the class) sends one
    command, and when the channel fails that command, with the timeout
    error or with any other exception, the caller that awaits the form
    gets that exception. *)
Theorem suspending_forms_propagate
  (name : string) (ps : list param)
  (f : Audio -> call -> result (Coro value))
  (self : Audio) (c : call) (ch : Channel) (coro : Coro value) :
  Audio_attr name = Some (AsyncDef ps f) ->
  f self c = Ok coro ->
  exists cmd,
    snd (await_call (f self c) ch) = [Invocation self cmd] /\
    forall e, ch self cmd = Completed (Raise e) ->
      fst (await_call (f self c) ch) = Completed (Raise e).
Proof.
  intros Hattr S.
  apply async_member in Hattr as (o & -> & -> & ->).
  destruct (suspending_ok self o c coro S) as (pos & t & Hs & _).
  exists (command (op_name o) pos t).
  rewrite S. unfold await_call, run_coro. rewrite (Hs ch []). simpl.
  split; [reflexivity|]. intros e He. now apply reply_of_raise.
Qed.

Lemma suspending_forms_propagate_witness :
  fst (await_call
         (get_current_position_async Audio_default
            (Call [] [("timeout", VFloat (1 # 100))]))
         (timed_channel (Remote (Some 1) (Ok (VDuration Duration_default)))))
  = Completed (Raise (Exn TimeoutError "timeout waiting for reply")).
Proof.
  destruct (suspending_forms_propagate
              "get_current_position_async" timeout_only_params
              get_current_position_async Audio_default
              (Call [] [("timeout", VFloat (1 # 100))])
              (timed_channel (Remote (Some 1) (Ok (VDuration Duration_default))))
              _ eq_refl eq_refl) as (cmd & Hsent & Hraise).
  simpl in Hsent. inversion Hsent; subst cmd.
  apply Hraise. reflexivity.
Defined.

(** C6: the class has [get_duration_async] and
    [get_current_position_async] and no method [get_duration] or
    [get_current_position]: its plain methods are the five fire-and-forget
    forms.  A query returns to its caller what the channel gave for the
    command, as it is: a reply of [None] is the value returned, not an
    exception. *)
Theorem queries_have_only_suspending_form
  (self : Audio) (c : call) (ch : Channel) :
  Audio_attr "get_duration" = None /\
  Audio_attr "get_current_position" = None /\
  Audio_attr "get_duration_async"
    = Some (AsyncDef timeout_only_params get_duration_async) /\
  Audio_attr "get_current_position_async"
    = Some (AsyncDef timeout_only_params get_current_position_async) /\
  (forall name ps f, Audio_attr name = Some (Def ps f) ->
     In name ["play"; "pause"; "resume"; "release"; "seek"]) /\
  match get_duration_async self c with
  | Ok coro =>
      exists t,
        run_coro coro ch =
          (ch self (Call [VStr "get_duration"] [("timeout", t)]),
           [Invocation self (Call [VStr "get_duration"] [("timeout", t)])])
  | Raise e => exn_cls e = TypeError
  end /\
  match get_current_position_async self c with
  | Ok coro =>
      exists t,
        run_coro coro ch =
          (ch self (Call [VStr "get_current_position"] [("timeout", t)]),
           [Invocation self
              (Call [VStr "get_current_position"] [("timeout", t)])])
  | Raise e => exn_cls e = TypeError
  end /\
  (forall t,
     ch self (Call [VStr "get_duration"] [("timeout", t)])
       = Completed (Ok VNone) ->
     fst (await_call (get_duration_async self (Call [] [("timeout", t)])) ch)
       = Completed (Ok VNone)) /\
  (forall t,
     ch self (Call [VStr "get_current_position"] [("timeout", t)])
       = Completed (Ok VNone) ->
     fst (await_call
            (get_current_position_async self (Call [] [("timeout", t)])) ch)
       = Completed (Ok VNone)).
Proof.
  split; [reflexivity|]. split; [reflexivity|].
  split; [reflexivity|]. split; [reflexivity|].
  split.
  { intros name ps f H. apply def_member in H as (o & -> & _ & Hf & _).
    destruct o; simpl in *; try discriminate; tauto. }
  split; [|split].
  - destruct (get_duration_async self c) as [coro|e] eqn:S.
    + destruct (suspending_ok self GetDuration c coro S)
        as (pos & t & Hs & _ & _ & _ & ->).
      exists t. exact (Hs ch []).
    + exact (suspending_raises self GetDuration c e S).
  - destruct (get_current_position_async self c) as [coro|e] eqn:S.
    + destruct (suspending_ok self GetCurrentPosition c coro S)
        as (pos & t & Hs & _ & _ & _ & ->).
      exists t. exact (Hs ch []).
    + exact (suspending_raises self GetCurrentPosition c e S).
  - split; intros t H; exact H.
Qed.

Lemma queries_have_only_suspending_form_witness :
  fst (await_call
         (get_duration_async Audio_default (Call [] [("timeout", VInt 10)]))
         (timed_channel (Remote (Some 0) (Ok VNone))))
  = Completed (Ok VNone).
Proof.
  apply (queries_have_only_suspending_form Audio_default (Call [] [])
           (timed_channel (Remote (Some 0) (Ok VNone)))).
  reflexivity.
Defined.

(** C9: with a running loop, [play()] returns [None] at once, nothing
    sent, and queues a task which, when the loop runs, sends the command
    "play" with the arguments {"position": Duration()} and the timeout 10;
    [play(p, timeout=t)] queues the command with [p] and [t].
    [pause_async], [resume_async] and [release_async] send their name with
    no arguments mapping, [seek_async] sends "seek" with
    {"position": p}; each passes on the timeout it was given. *)
Theorem play_schedules_play_command
  (self : Audio) (rt : runtime) (ch : Channel) (p t : value) :
  running rt = true ->
  (exists coro,
     play self (Call [] []) rt
       = (Ok VNone,
          Runtime true (tasks rt ++ [Scheduled coro])%list
            (sent rt) (reported rt)) /\
     sends Play coro self
       (Call [VStr "play"; VDict [("position", VDuration Duration_default)]]
             [("timeout", VInt 10)]) /\
     sent (run_ready ch (snd (play self (Call [] []) rt)))
       = (sent (run_ready ch rt) ++
          [Invocation self
             (Call [VStr "play";
                    VDict [("position", VDuration Duration_default)]]
                   [("timeout", VInt 10)])])%list) /\
  (exists coro,
     play self (Call [p] [("timeout", t)]) rt
       = (Ok VNone,
          Runtime true (tasks rt ++ [Scheduled coro])%list
            (sent rt) (reported rt)) /\
     sends Play coro self
       (Call [VStr "play"; VDict [("position", p)]] [("timeout", t)])) /\
  (exists coro,
     pause_async self (Call [] [("timeout", t)]) = Ok coro /\
     sends Pause coro self (Call [VStr "pause"] [("timeout", t)])) /\
  (exists coro,
     resume_async self (Call [] [("timeout", t)]) = Ok coro /\
     sends Resume coro self (Call [VStr "resume"] [("timeout", t)])) /\
  (exists coro,
     release_async self (Call [] [("timeout", t)]) = Ok coro /\
     sends Release coro self (Call [VStr "release"] [("timeout", t)])) /\
  (exists coro,
     seek_async self (Call [p] [("timeout", t)]) = Ok coro /\
     sends Seek coro self
       (Call [VStr "seek"; VDict [("position", p)]] [("timeout", t)])) /\
  (forall o c coro, suspending_form o self c = Ok coro ->
     exists pos t',
       sends o coro self (command (op_name o) pos t') /\
       (forall v, In ("timeout", v) (c_kw c) -> t' = v) /\
       (forall v,
          nth_error (c_pos c) (List.length (params_of o) - 1) = Some v ->
          t' = v) /\
       (is_query o = false ->
        (pos = None <-> In o [Pause; Resume; Release]))).
Proof.
  intros R.
  split.
  { rewrite (fire_and_forget_spec self Play play (Call [] []) rt eq_refl).
    simpl. rewrite R. eexists. split; [reflexivity|].
    split; [apply invoke_sends_void; reflexivity|]. simpl.
    match goal with
    | |- context [Scheduled ?k] =>
        pose proof (run_ready_added ch rt k) as [_ Hs]
    end.
    rewrite R in Hs. simpl in Hs. rewrite Hs.
    unfold coro_bind, _invoke_method_async, coro_ret.
    destruct (ch self _) as [[w|e]|]; reflexivity. }
  split.
  { rewrite (fire_and_forget_spec self Play play _ rt eq_refl).
    simpl. rewrite R. eexists. split; [reflexivity|].
    apply invoke_sends_void; reflexivity. }
  split; [eexists; split; [reflexivity|apply invoke_sends_void; reflexivity]|].
  split; [eexists; split; [reflexivity|apply invoke_sends_void; reflexivity]|].
  split; [eexists; split; [reflexivity|apply invoke_sends_void; reflexivity]|].
  split; [eexists; split; [reflexivity|apply invoke_sends_void; reflexivity]|].
  intros o c coro S.
  destruct (suspending_ok self o c coro S)
    as (pos & t' & Hs & Hk & Hp & _ & Hpos).
  exists pos, t'. split; [exact Hs|]. split; [exact Hk|]. split; [exact Hp|].
  intros Hq. destruct o; simpl in *; try discriminate.
  all: try (subst pos; split; [intros _; tauto|reflexivity]).
  all: destruct Hpos as (q & -> & _); split; [discriminate|];
       intros [H|[H|[H|[]]]]; discriminate.
Qed.

Lemma play_schedules_play_command_witness :
  sent (run_ready (timed_channel (Remote (Some 0) (Ok VNone)))
          (snd (play
                  (mkAudio (Some "a.mp3") None false 1 0 1 RELEASE
                     None None None None None)
                  (Call [] []) (Runtime true [] [] []))))
  = [Invocation
       (mkAudio (Some "a.mp3") None false 1 0 1 RELEASE
          None None None None None)
       (Call [VStr "play"; VDict [("position", VDuration Duration_default)]]
             [("timeout", VInt 10)])].
Proof.
  destruct (play_schedules_play_command
              (mkAudio (Some "a.mp3") None false 1 0 1 RELEASE
                 None None None None None)
              (Runtime true [] [] [])
              (timed_channel (Remote (Some 0) (Ok VNone)))
              VNone VNone eq_refl) as [(coro & _ & _ & H) _].
  exact H.
Defined.

(** C4: every operation takes its timeout as the last parameter, named
    [timeout], with the default 10, in the suspending form and, where the
    class has one, in the fire-and-forget form (which hands the loop the
    very coroutine of the suspending form).  A call that leaves the
    timeout out sends 10; a call that gives it, [None] included, sends what
    it gave, and [timeout=None] is accepted.  On the channel the number
    counts seconds: with 10 a reply that takes less than 10 seconds is
    returned and one that takes more is a timeout error; with [None] there
    is no timeout error, the caller waits for the reply however long it
    takes. *)
Theorem timeout_defaults_to_ten_and_accepts_none
  (o : operation) (self : Audio) (c : call) (coro : Coro value) :
  suspending_form o self c = Ok coro ->
  Audio_attr (op_name o ++ "_async")
    = Some (AsyncDef (params_of o) (suspending_form o)) /\
  Audio_attr (op_name o)
    = option_map (Def (params_of o)) (fire_and_forget_form o) /\
  (exists front,
     params_of o = (front ++ [Param "timeout" (Some (VInt 10))])%list) /\
  (exists pos t,
     sends o coro self (command (op_name o) pos t) /\
     (timeout_omitted (params_of o) c -> t = VInt 10) /\
     (In ("timeout", VNone) (c_kw c) -> t = VNone) /\
     (forall v, In ("timeout", v) (c_kw c) -> t = v)) /\
  (forall f rt, fire_and_forget_form o = Some f -> running rt = true ->
     f self c rt
       = (Ok VNone,
          Runtime true (tasks rt ++ [Scheduled coro])%list
            (sent rt) (reported rt))) /\
  (forall p, exists coro',
     suspending_form o self (inner_call o p VNone) = Ok coro' /\
     sends o coro' self
       (command (op_name o)
          (match o with Play | Seek => Some p | _ => None end) VNone)) /\
  (forall pos r who,
     timed_channel r who (command (op_name o) pos VNone)
       = match latency r with
         | Some _ => Completed (answer r)
         | None => Suspended
         end) /\
  (forall pos r who l, latency r = Some l ->
     ((l < 10)%Q ->
      timed_channel r who (command (op_name o) pos (VInt 10))
        = Completed (answer r)) /\
     ((10 < l)%Q ->
      timed_channel r who (command (op_name o) pos (VInt 10))
        = Completed (Raise (Exn TimeoutError "timeout waiting for reply")))).
Proof.
  intros S.
  destruct (forms_in_class o) as [Ha Hd].
  split; [exact Ha|]. split; [exact Hd|].
  split.
  { destruct o; simpl;
      first [ now exists [] | now eexists [_] ]. }
  split.
  { destruct (suspending_ok self o c coro S) as (pos & t & Hs & Hk & _ & Hd' & _).
    exists pos, t. repeat split; auto. }
  split.
  { intros f rt Hf R.
    rewrite (fire_and_forget_spec self o f c rt Hf), S, R. reflexivity. }
  split.
  { intros p. apply inner_call_accepted. }
  split.
  { intros pos r who. unfold timed_channel, command.
    destruct pos; reflexivity. }
  intros pos r who l Hl.
  assert (Hw : window (command (op_name o) pos (VInt 10))
               = Ok (Some (inject_Z 10)))
    by (unfold command; destruct pos; reflexivity).
  unfold timed_channel. rewrite Hw, Hl. split; intros H.
  - assert (Hle : Qle_bool l (inject_Z 10) = true)
      by (apply Qle_bool_iff, Qlt_le_weak; exact H).
    now rewrite Hle.
  - destruct (Qle_bool l (inject_Z 10)) eqn:Hle; [|reflexivity].
    apply Qle_bool_iff in Hle. exfalso.
    exact (Qlt_not_le _ _ H Hle).
Qed.

Lemma timeout_defaults_to_ten_and_accepts_none_witness :
  exists pos t,
    sends Pause
      (await _ <- _invoke_method_async Audio_default
                    (Call [VStr "pause"] [("timeout", VInt 10)]) ;;
       coro_ret VNone)
      Audio_default (command "pause" pos t) /\
    (timeout_omitted timeout_only_params (Call [] []) -> t = VInt 10) /\
    (In ("timeout", VNone) (c_kw (Call [] [])) -> t = VNone) /\
    (forall v, In ("timeout", v) (c_kw (Call [] [])) -> t = v).
Proof.
  apply (timeout_defaults_to_ten_and_accepts_none Pause Audio_default
           (Call [] []) _ eq_refl).
Defined.

(** * Further properties of the methods *)

(** ** Which calls a signature accepts *)

Section AcceptanceFacts.

Lemma fill_positional_some ps : forall args sl,
  fill_positional ps args = Some sl ->
  map fst sl = ps /\ (List.length args <= List.length ps)%nat.
Proof.
  induction ps as [|p ps' IH]; intros [|a args'] sl; simpl;
    try discriminate.
  - intros H; inversion H; subst. split; [reflexivity|lia].
  - destruct (fill_positional ps' []) as [sl0|] eqn:E; [|discriminate].
    simpl. intros H; inversion H; subst.
    destruct (IH _ _ E) as [Hm _]. simpl. rewrite Hm. split; [reflexivity|lia].
  - destruct (fill_positional ps' args') as [sl0|] eqn:E; [|discriminate].
    simpl. intros H; inversion H; subst.
    destruct (IH _ _ E) as [Hm Hl]. simpl. rewrite Hm. split; [reflexivity|lia].
Qed.

Lemma fill_positional_total ps : forall args,
  (List.length args <= List.length ps)%nat ->
  exists sl, fill_positional ps args = Some sl.
Proof.
  induction ps as [|p ps' IH]; intros [|a args'] Hl; simpl in *.
  - now eexists.
  - lia.
  - destruct (IH [] ltac:(simpl; lia)) as [sl ->]. now eexists.
  - destruct (IH args' ltac:(lia)) as [sl ->]. now eexists.
Qed.

Lemma slot_get_cons p s rest k :
  slot_get ((p, s) :: rest) k
  = if p_name p =? k then Some s else slot_get rest k.
Proof. reflexivity. Qed.

(** After the positional arguments, the empty slots are those of the
    parameters beyond them. *)
Lemma fill_positional_get ps : forall args sl,
  NoDup (map p_name ps) ->
  fill_positional ps args = Some sl ->
  forall k,
    slot_get sl k = Some None <->
    exists i, nth_error (map p_name ps) i = Some k /\
              (List.length args <= i)%nat.
Proof.
  induction ps as [|p ps' IH]; intros [|a args'] sl Hnd; simpl;
    try discriminate.
  - intros H; inversion H; subst. intros k. split; [discriminate|].
    intros ([|i] & Hi & _); discriminate.
  - destruct (fill_positional ps' []) as [sl0|] eqn:E; [|discriminate].
    simpl. intros H; inversion H; subst. intros k.
    apply NoDup_cons_iff in Hnd as [Hnin Hnd].
    rewrite slot_get_cons. destruct (p_name p =? k) eqn:Ek.
    + apply String.eqb_eq in Ek. split; [|reflexivity].
      intros _. exists 0%nat. simpl. split; [now rewrite Ek|lia].
    + apply String.eqb_neq in Ek. rewrite (IH _ _ Hnd E k). split.
      * intros (i & Hi & _). exists (S i). split; [exact Hi|lia].
      * intros ([|i] & Hi & _); simpl in Hi.
        -- inversion Hi; contradiction.
        -- exists i. split; [exact Hi|simpl; lia].
  - destruct (fill_positional ps' args') as [sl0|] eqn:E; [|discriminate].
    simpl. intros H; inversion H; subst. intros k.
    apply NoDup_cons_iff in Hnd as [Hnin Hnd].
    rewrite slot_get_cons. destruct (p_name p =? k) eqn:Ek.
    + apply String.eqb_eq in Ek. split; [discriminate|].
      intros ([|i] & Hi & Hl); [lia|]. simpl in Hi.
      apply nth_error_In in Hi. subst k. contradiction.
    + apply String.eqb_neq in Ek. rewrite (IH _ _ Hnd E k). split.
      * intros (i & Hi & Hl). exists (S i). split; [exact Hi|lia].
      * intros ([|i] & Hi & Hl); [lia|]. simpl in Hi.
        exists i. split; [exact Hi|lia].
Qed.

Lemma fill_keyword_accepts sl k v :
  slot_get sl k = Some None -> exists sl', fill_keyword sl k v = Ok sl'.
Proof.
  induction sl as [|[p s] rest IH]; [discriminate|].
  rewrite slot_get_cons. simpl. destruct (p_name p =? k).
  - intros H; inversion H; subst. now eexists.
  - intros H. destruct (IH H) as [sl' ->]. now eexists.
Qed.

(** The keywords are accepted exactly when no two are the same and each
    names an empty slot. *)
Lemma fill_keywords_accepts_iff kws : forall sl,
  (exists sl', fill_keywords sl kws = Ok sl') <->
  NoDup (map fst kws) /\
  (forall k, In k (map fst kws) -> slot_get sl k = Some None).
Proof.
  induction kws as [|[k0 v0] rest IH]; intros sl; simpl.
  - split; [|now eexists]. intros _. split; [constructor|]. intros k [].
  - split.
    + intros [sl' H].
      destruct (fill_keyword sl k0 v0) as [sl1|] eqn:E; [|discriminate].
      destruct (fill_keyword_ok _ _ _ _ E) as (_ & Hk & Hk' & Ho).
      destruct (proj1 (IH sl1) (ex_intro _ sl' H)) as [Hnd Hall].
      assert (Hnin : ~ In k0 (map fst rest)).
      { intros Hin. specialize (Hall _ Hin). congruence. }
      split; [constructor; assumption|].
      intros k [<-|Hin]; [exact Hk|].
      rewrite <- Ho; [now apply Hall|].
      intros ->. contradiction.
    + intros [Hnd Hall]. apply NoDup_cons_iff in Hnd as [Hnin Hnd].
      destruct (fill_keyword_accepts sl k0 v0 (Hall k0 (or_introl eq_refl)))
        as [sl1 E].
      rewrite E. apply IH. split; [exact Hnd|].
      intros k Hin.
      destruct (fill_keyword_ok _ _ _ _ E) as (_ & _ & _ & Ho).
      rewrite Ho; [apply Hall; now right|].
      intros ->. contradiction.
Qed.

Lemma apply_defaults_accepts_iff sl :
  (exists vs, apply_defaults sl = Ok vs) <->
  (forall p s, In (p, s) sl -> s = None -> p_default p <> None).
Proof.
  induction sl as [|[p s] rest IH]; simpl.
  - split; [intros _ p s []|now eexists].
  - split.
    + intros [vs H] q s' [Heq|Hin] Hs.
      * inversion Heq; subst. destruct (p_default q); [discriminate|].
        discriminate.
      * destruct (match s with Some v => Some v | None => p_default p end);
          [|discriminate].
        destruct (apply_defaults rest) as [vs'|] eqn:E; [|discriminate].
        apply (proj1 IH (ex_intro _ vs' eq_refl) q s' Hin Hs).
    + intros Hall.
      destruct (proj2 IH) as [vs' E].
      { intros q s' Hin. apply Hall. now right. }
      rewrite E.
      destruct s as [v|]; [now eexists|].
      destruct (p_default p) as [v|] eqn:Ed; [now eexists|].
      exfalso. apply (Hall p None (or_introl eq_refl) eq_refl). exact Ed.
Qed.

Lemma slot_get_nth (sl : list slot) : forall i p s,
  NoDup (map p_name (map fst sl)) ->
  nth_error sl i = Some (p, s) ->
  slot_get sl (p_name p) = Some s.
Proof.
  induction sl as [|[q t] rest IH]; intros [|i] p s Hnd; simpl;
    try discriminate.
  - intros H; inversion H; subst. rewrite slot_get_cons.
    now rewrite String.eqb_refl.
  - intros H. simpl in Hnd. apply NoDup_cons_iff in Hnd as [Hnin Hnd].
    rewrite slot_get_cons. destruct (p_name q =? p_name p) eqn:E.
    + apply String.eqb_eq in E. exfalso. apply Hnin. rewrite E.
      apply nth_error_In in H.
      apply (in_map fst) in H. apply (in_map p_name) in H. exact H.
    + eapply IH; eauto.
Qed.

Lemma nth_error_map_fst {A B} (l : list (A * B)) : forall i a,
  nth_error (map fst l) i = Some a -> exists b, nth_error l i = Some (a, b).
Proof.
  induction l as [|[a0 b0] rest IH]; intros [|i] a; simpl; try discriminate.
  - intros H; inversion H; subst. now exists b0.
  - apply IH.
Qed.

Lemma nth_error_fst_map {A B} (l : list (A * B)) : forall i a b,
  nth_error l i = Some (a, b) -> nth_error (map fst l) i = Some a.
Proof.
  induction l as [|[a0 b0] rest IH]; intros [|i] a b; simpl;
    try discriminate.
  - intros H; inversion H; subst. reflexivity.
  - apply IH.
Qed.

(** The calls [bind_args] accepts are the calls that fit the signature. *)
Lemma bind_args_accepts_iff ps c :
  NoDup (map p_name ps) ->
  (exists vs, bind_args ps c = Ok vs) <-> well_formed_call ps c.
Proof.
  intros Hnd. unfold bind_args, well_formed_call, keywords.
  destruct c as [pos kws]; simpl.
  split.
  - intros [vs H].
    destruct (fill_positional ps pos) as [sl|] eqn:P; [|discriminate].
    destruct (fill_keywords sl kws) as [sl'|] eqn:K; [|discriminate].
    destruct (fill_positional_some _ _ _ P) as [Hm Hl].
    destruct (proj1 (fill_keywords_accepts_iff kws sl) (ex_intro _ sl' K))
      as [Hkd Hall].
    destruct (fill_keywords_ok _ _ _ K) as (Hm' & Hout & Hin & _).
    split; [exact Hl|]. split; [exact Hkd|]. split.
    + intros k Hk. apply (fill_positional_get ps pos sl Hnd P). now apply Hall.
    + intros i p Hp Hd.
      destruct (Nat.lt_ge_cases i (List.length pos)) as [Hlt|Hge];
        [now left|].
      destruct (in_dec string_dec (p_name p) (map fst kws)) as [Hi|Hni];
        [now right|].
      exfalso.
      assert (Hs : exists s, nth_error sl' i = Some (p, s)).
      { apply nth_error_map_fst. now rewrite Hm', Hm. }
      destruct Hs as [s Hs].
      assert (Hg : slot_get sl' (p_name p) = Some s).
      { apply (slot_get_nth sl' i p s); [|exact Hs].
        rewrite Hm', Hm. exact Hnd. }
      rewrite (Hout _ Hni) in Hg.
      assert (Hn : slot_get sl (p_name p) = Some None).
      { apply (fill_positional_get ps pos sl Hnd P). exists i.
        split; [|exact Hge]. rewrite nth_error_map, Hp. reflexivity. }
      rewrite Hn in Hg. inversion Hg; subst s.
      apply nth_error_In in Hs.
      exact (proj1 (apply_defaults_accepts_iff sl') (ex_intro _ vs H)
               p None Hs eq_refl Hd).
  - intros (Hl & Hkd & Hk & Hreq).
    destruct (fill_positional_total ps pos Hl) as [sl P]. rewrite P.
    destruct (fill_positional_some _ _ _ P) as [Hm _].
    destruct (proj2 (fill_keywords_accepts_iff kws sl)) as [sl' K].
    { split; [exact Hkd|]. intros k Hin.
      apply (fill_positional_get ps pos sl Hnd P). now apply Hk. }
    rewrite K.
    destruct (fill_keywords_ok _ _ _ K) as (Hm' & Hout & Hin & _).
    apply apply_defaults_accepts_iff.
    intros p s Hps Hs Hd. subst s.
    destruct (In_nth_error _ _ Hps) as [i Hi].
    assert (Hp : nth_error ps i = Some p).
    { rewrite <- Hm, <- Hm'. eapply nth_error_fst_map; eauto. }
    assert (Hg : slot_get sl' (p_name p) = Some None).
    { apply (slot_get_nth sl' i p None); [|exact Hi].
      rewrite Hm', Hm. exact Hnd. }
    destruct (Hreq i p Hp Hd) as [Hlt|Hkw].
    + assert (Hni : ~ In (p_name p) (map fst kws)).
      { intros Hi'. apply in_map_iff in Hi' as [[k v] [Hk' Hv]].
        simpl in Hk'. subst k. rewrite (Hin _ _ Hv) in Hg. discriminate. }
      rewrite (Hout _ Hni) in Hg.
      apply (fill_positional_get ps pos sl Hnd P) in Hg as (j & Hj & Hge).
      assert (j = i).
      { apply (proj1 (NoDup_nth_error (map p_name ps)) Hnd).
        - apply nth_error_Some. rewrite Hj. discriminate.
        - rewrite Hj, nth_error_map, Hp. reflexivity. }
      lia.
    + apply in_map_iff in Hkw as [[k v] [Hk' Hv]].
      simpl in Hk'. subst k. rewrite (Hin _ _ Hv) in Hg. discriminate.
Qed.

End AcceptanceFacts.

(** ** The forms, call by call *)

Section FormsCallByCall.

Lemma params_nodup o : NoDup (map p_name (params_of o)).
Proof.
  destruct o; simpl; repeat constructor; simpl; try tauto.
  all: intros [H|[]]; discriminate.
Qed.

Lemma suspending_binds self o c coro :
  suspending_form o self c = Ok coro ->
  exists vs, bind_args (params_of o) c = Ok vs.
Proof.
  destruct o; simpl;
    unfold play_async, pause_async, resume_async, release_async, seek_async,
      get_duration_async, get_current_position_async, bind1, bind2.
  all: match goal with
       | |- context [bind_args ?ps ?c0] =>
           destruct (bind_args ps c0) as [vs|e]; [|discriminate]
       end.
  all: intros _; now exists vs.
Qed.

(** What a fire-and-forget call leaves behind, seen after the loop has
    run: the log and the task table are those of the loop without the
    call, followed by what awaiting the suspending form gives. *)
Lemma spawned_run o f self c rt ch :
  fire_and_forget_form o = Some f ->
  running rt = true ->
  running (snd (f self c rt)) = true /\
  sent (snd (f self c rt)) = sent rt /\
  fst (f self c rt)
    = match suspending_form o self c with
      | Ok _ => Ok VNone
      | Raise e => Raise e
      end /\
  sent (run_ready ch (snd (f self c rt)))
    = (sent (run_ready ch rt)
       ++ snd (await_call (suspending_form o self c) ch))%list /\
  tasks (run_ready ch (snd (f self c rt)))
    = (tasks (run_ready ch rt)
       ++ match suspending_form o self c with
          | Ok _ =>
              [task_of_outcome
                 (fst (await_call (suspending_form o self c) ch))]
          | Raise _ => []
          end)%list.
Proof.
  intros Hf R. rewrite (fire_and_forget_spec self o f c rt Hf).
  destruct (suspending_form o self c) as [coro|e] eqn:S.
  - rewrite R. simpl.
    destruct (suspending_ok self o c coro S) as (pos & t & Hs & _).
    pose proof (run_ready_added ch rt coro) as Hrun.
    rewrite R in Hrun. simpl in Hrun. destruct Hrun as [Ht Hl].
    rewrite Hs in Ht, Hl. simpl in Ht, Hl.
    unfold run_coro. rewrite (Hs ch []). simpl.
    repeat split; auto.
  - simpl. rewrite !app_nil_r. repeat split; auto.
Qed.

End FormsCallByCall.

(** X1: a suspending form accepts exactly the calls that fit its
    signature.  An accepted call sends one command; a call that does not
    fit raises a type error when it is made, and sends nothing. *)
Theorem suspending_form_accepts_iff
  (o : operation) (self : Audio) (c : call) (ch : Channel) :
  match suspending_form o self c with
  | Ok coro =>
      well_formed_call (params_of o) c /\
      exists cmd, snd (run_coro coro ch) = [Invocation self cmd]
  | Raise e =>
      ~ well_formed_call (params_of o) c /\
      exn_cls e = TypeError /\
      await_call (suspending_form o self c) ch = (Completed (Raise e), [])
  end.
Proof.
  destruct (suspending_form o self c) as [coro|e] eqn:S.
  - split.
    + apply (bind_args_accepts_iff _ _ (params_nodup o)).
      exact (suspending_binds self o c coro S).
    + destruct (suspending_ok self o c coro S) as (pos & t & Hs & _).
      exists (command (op_name o) pos t).
      unfold run_coro. now rewrite (Hs ch []).
  - split; [|split].
    + intros Hwf.
      apply (bind_args_accepts_iff _ _ (params_nodup o)) in Hwf as [vs B].
      destruct (suspending_accepts self o c vs B) as [coro S'].
      congruence.
    + exact (suspending_raises self o c e S).
    + reflexivity.
Qed.

(** X2: what a fire-and-forget method does with a call: it returns [None]
    exactly when the call fits the signature and a loop is running; a call
    that does not fit raises a type error, loop or no loop; a call that
    fits, made without a running loop, raises the runtime error of
    [asyncio.create_task].  When it raises, nothing is queued. *)
Theorem fire_and_forget_outcome
  (name : string) (ps : list param)
  (f : Audio -> call -> runtime -> result value * runtime)
  (self : Audio) (c : call) (rt : runtime) :
  Audio_attr name = Some (Def ps f) ->
  match fst (f self c rt) with
  | Ok v =>
      v = VNone /\ well_formed_call ps c /\ running rt = true /\
      List.length (tasks (snd (f self c rt))) = S (List.length (tasks rt))
  | Raise e =>
      snd (f self c rt) = rt /\
      ((exn_cls e = TypeError /\ ~ well_formed_call ps c) \/
       (e = Exn RuntimeError "no running event loop" /\
        well_formed_call ps c /\ running rt = false))
  end.
Proof.
  intros Hattr.
  apply def_member in Hattr as (o & -> & -> & Hf & Hq).
  rewrite (fire_and_forget_spec self o f c rt Hf).
  pose proof (suspending_form_accepts_iff o self c (fun _ _ => Suspended))
    as Hacc.
  destruct (suspending_form o self c) as [coro|e] eqn:S.
  - destruct Hacc as [Hwf _].
    destruct (running rt) eqn:R; simpl.
    + split; [reflexivity|]. split; [exact Hwf|]. split; [reflexivity|].
      rewrite List.length_app. simpl. lia.
    + split; [reflexivity|]. right.
      split; [reflexivity|]. split; [exact Hwf|reflexivity].
  - destruct Hacc as (Hnwf & Hcls & _). simpl.
    split; [reflexivity|]. left. split; assumption.
Qed.

Lemma fire_and_forget_outcome_witness :
  exists e,
    fst (seek a_mp3 (Call [VInt 3] [("position", VInt 4)])
           (Runtime false [] [] [])) = Raise e /\
    exn_cls e = TypeError /\
    ~ well_formed_call seek_params (Call [VInt 3] [("position", VInt 4)]).
Proof.
  pose proof (fire_and_forget_outcome "seek" seek_params seek a_mp3
                (Call [VInt 3] [("position", VInt 4)])
                (Runtime false [] [] []) eq_refl) as H.
  simpl in H. destruct H as [_ [[Hc Hn]|[He _]]].
  - eexists. split; [reflexivity|]. split; assumption.
  - discriminate He.
Defined.

(** X3: every coroutine function of the class sends the command that has
    its own name without the ending [_async], as the first argument of the
    one call it makes of [_invoke_method_async]. *)
Theorem command_is_named_after_method
  (name : string) (ps : list param)
  (f : Audio -> call -> result (Coro value))
  (self : Audio) (c : call) (coro : Coro value) (ch : Channel) :
  Audio_attr name = Some (AsyncDef ps f) ->
  f self c = Ok coro ->
  exists base rest kw,
    name = base ++ "_async" /\
    snd (run_coro coro ch) = [Invocation self (Call (VStr base :: rest) kw)].
Proof.
  intros Hattr S.
  apply async_member in Hattr as (o & -> & -> & ->).
  destruct (suspending_ok self o c coro S) as (pos & t & Hs & _).
  unfold run_coro. rewrite (Hs ch []). simpl.
  exists (op_name o). unfold command.
  destruct pos; do 2 eexists; split; reflexivity.
Qed.

Lemma command_is_named_after_method_witness :
  exists base rest kw,
    "release_async" = base ++ "_async" /\
    snd (run_coro
           (await _ <- _invoke_method_async a_mp3
                         (Call [VStr "release"] [("timeout", VInt 10)]) ;;
            coro_ret VNone)
           (timed_channel (Remote (Some 0) (Ok VNone))))
    = [Invocation a_mp3 (Call (VStr base :: rest) kw)].
Proof.
  apply (command_is_named_after_method "release_async" timeout_only_params
           release_async a_mp3 (Call [] []) _
           (timed_channel (Remote (Some 0) (Ok VNone))) eq_refl eq_refl).
Defined.

(** X4: each fire-and-forget method [n] has the coroutine function
    [n_async] beside it, with the same parameters, and is that function
    run by the loop: it raises at once what the call of [n_async] raises;
    otherwise, after the loop has run, the command sent is the one that
    awaiting [n_async] sends, and the new task holds the outcome that the
    await would have had (blocked, if the await never ends). *)
Theorem fire_and_forget_runs_suspending_form
  (name : string) (ps : list param)
  (f : Audio -> call -> runtime -> result value * runtime)
  (self : Audio) (c : call) (rt : runtime) (ch : Channel) :
  Audio_attr name = Some (Def ps f) ->
  running rt = true ->
  exists g,
    Audio_attr (name ++ "_async") = Some (AsyncDef ps g) /\
    fst (f self c rt)
      = match g self c with Ok _ => Ok VNone | Raise e => Raise e end /\
    sent (snd (f self c rt)) = sent rt /\
    sent (run_ready ch (snd (f self c rt)))
      = (sent (run_ready ch rt) ++ snd (await_call (g self c) ch))%list /\
    tasks (run_ready ch (snd (f self c rt)))
      = (tasks (run_ready ch rt)
         ++ match g self c with
            | Ok _ => [task_of_outcome (fst (await_call (g self c) ch))]
            | Raise _ => []
            end)%list.
Proof.
  intros Hattr R.
  apply def_member in Hattr as (o & -> & -> & Hf & Hq).
  exists (suspending_form o).
  split; [exact (proj1 (forms_in_class o))|].
  destruct (spawned_run o f self c rt ch Hf R) as (_ & Hs & Hr & Hl & Ht).
  repeat split; assumption.
Qed.

Lemma fire_and_forget_runs_suspending_form_witness :
  tasks (run_ready (timed_channel (Remote None (Ok VNone)))
           (snd (pause a_mp3 (Call [] [("timeout", VNone)])
                   (Runtime true [] [] []))))
  = [Blocked].
Proof.
  destruct (fire_and_forget_runs_suspending_form "pause" timeout_only_params
              pause a_mp3 (Call [] [("timeout", VNone)])
              (Runtime true [] [] [])
              (timed_channel (Remote None (Ok VNone))) eq_refl eq_refl)
    as (g & Hg & _ & _ & _ & Ht).
  inversion Hg; subst g. exact Ht.
Defined.

(** X5: the coroutine function beside a fire-and-forget method returns
    [None] whatever value the channel replies with: the reply is dropped.
    An exception of the channel, or a reply that never comes, is passed on
    as it is. *)
Theorem control_operations_return_none
  (name : string) (ps : list param)
  (f : Audio -> call -> runtime -> result value * runtime)
  (g : Audio -> call -> result (Coro value))
  (self : Audio) (c : call) (coro : Coro value) (ch : Channel) :
  Audio_attr name = Some (Def ps f) ->
  Audio_attr (name ++ "_async") = Some (AsyncDef ps g) ->
  g self c = Ok coro ->
  exists cmd,
    snd (run_coro coro ch) = [Invocation self cmd] /\
    fst (run_coro coro ch)
      = match ch self cmd with
        | Completed (Ok _) => Completed (Ok VNone)
        | other => other
        end.
Proof.
  intros Hd Ha S.
  apply def_member in Hd as (o & -> & -> & Hf & Hq).
  rewrite (proj1 (forms_in_class o)) in Ha. inversion Ha; subst g.
  destruct (suspending_ok self o c coro S) as (pos & t & Hs & _).
  exists (command (op_name o) pos t).
  unfold run_coro. rewrite (Hs ch []). simpl.
  split; [reflexivity|]. unfold reply_of, void. rewrite Hq.
  destruct (ch self (command (op_name o) pos t)) as [[v|e]|]; reflexivity.
Qed.

Lemma control_operations_return_none_witness :
  fst (await_call
         (seek_async a_mp3 (Call [VInt 1500] []))
         (timed_channel (Remote (Some 1) (Ok (VStr "done")))))
  = Completed (Ok VNone).
Proof.
  destruct (control_operations_return_none "seek" seek_params seek seek_async
              a_mp3 (Call [VInt 1500] []) _
              (timed_channel (Remote (Some 1) (Ok (VStr "done"))))
              eq_refl eq_refl eq_refl) as (cmd & Hs & Hr).
  simpl in Hs. inversion Hs; subst cmd. exact Hr.
Defined.

(** X6: what a method sends is fixed by the arguments of the call: no
    method reads a field of the instance or asks whether it has a source,
    so two instances, whatever their fields and whatever the channel does,
    accept the same calls and send the same command for them. *)
Theorem command_depends_on_call_only
  (o : operation) (self1 self2 : Audio) (c : call) (ch1 ch2 : Channel) :
  map inv_call (snd (await_call (suspending_form o self1 c) ch1))
  = map inv_call (snd (await_call (suspending_form o self2 c) ch2)) /\
  match suspending_form o self1 c, suspending_form o self2 c with
  | Ok _, Ok _ => True
  | Raise e1, Raise e2 => e1 = e2
  | _, _ => False
  end.
Proof.
  destruct o; simpl;
    unfold play_async, pause_async, resume_async, release_async, seek_async,
      get_duration_async, get_current_position_async.
  all: try (destruct (bind1 timeout_only_params c) as [t|e]; simpl;
            [|split; reflexivity];
            unfold run_coro, coro_bind, _invoke_method_async, coro_ret;
            simpl;
            try (destruct (ch1 self1 _) as [[?|?]|];
                 destruct (ch2 self2 _) as [[?|?]|]);
            (split; [reflexivity|exact I])).
  all: match goal with
       | |- context [bind2 ?ps ?c0] =>
           destruct (bind2 ps c0) as [[p t]|e]; simpl;
           [|split; reflexivity];
           unfold run_coro, coro_bind, _invoke_method_async, coro_ret;
           simpl;
           destruct (ch1 self1 _) as [[?|?]|];
           destruct (ch2 self2 _) as [[?|?]|];
           (split; [reflexivity|exact I])
       end.
Qed.

Section SequenceFacts.

Lemma fire_step o self c rt ch :
  is_query o = false ->
  running rt = true ->
  running (fire o self c rt) = true /\
  sent (fire o self c rt) = sent rt /\
  sent (run_ready ch (fire o self c rt))
    = (sent (run_ready ch rt)
       ++ snd (await_call (suspending_form o self c) ch))%list.
Proof.
  intros Hq R. unfold fire.
  destruct (fire_and_forget_form o) as [f|] eqn:Hf.
  - destruct (spawned_run o f self c rt ch Hf R) as (Hr & Hs & _ & Hl & _).
    repeat split; assumption.
  - destruct o; simpl in *; discriminate.
Qed.

End SequenceFacts.

(** X7: a series of fire-and-forget calls made in a running loop sends
    nothing while the calls are made; when the loop runs, the commands go
    out in the order of the calls, each as its suspending form sends it,
    whether the commands before it succeeded, failed or never ended; a
    call that raised contributes nothing. *)
Theorem fire_all_sends_in_call_order
  (l : list (operation * call)) (self : Audio) (rt : runtime)
  (ch : Channel) :
  running rt = true ->
  (forall x, In x l -> is_query (fst x) = false) ->
  sent (fire_all l self rt) = sent rt /\
  sent (run_ready ch (fire_all l self rt))
    = (sent (run_ready ch rt)
       ++ flat_map
            (fun x => snd (await_call (suspending_form (fst x) self (snd x)) ch))
            l)%list.
Proof.
  revert rt. induction l as [|[o c] rest IH]; intros rt R Hq; simpl.
  - now rewrite app_nil_r.
  - assert (Hqo : is_query o = false) by (apply (Hq (o, c)); now left).
    destruct (fire_step o self c rt ch Hqo R) as (R' & Hs & Hl).
    destruct (IH (fire o self c rt) R') as [Hs' Hl'].
    { intros x Hin. apply Hq. now right. }
    split; [congruence|].
    rewrite Hl', Hl, app_assoc. reflexivity.
Qed.

Lemma fire_all_sends_in_call_order_witness :
  map inv_call
    (sent (run_ready (timed_channel (Remote None (Ok VNone)))
             (fire_all
                [(Play, Call [] []);
                 (Seek, Call [] []);
                 (Seek, Call [VInt 1500] [("timeout", VNone)]);
                 (Pause, Call [VInt 1] [])]
                a_mp3 (Runtime true [] [] []))))
  = [command "play" (Some (VDuration Duration_default)) (VInt 10);
     command "seek" (Some (VInt 1500)) VNone;
     command "pause" None (VInt 1)].
Proof.
  destruct (fire_all_sends_in_call_order
              [(Play, Call [] []);
               (Seek, Call [] []);
               (Seek, Call [VInt 1500] [("timeout", VNone)]);
               (Pause, Call [VInt 1] [])]
              a_mp3 (Runtime true [] [] [])
              (timed_channel (Remote None (Ok VNone))) eq_refl) as [_ H].
  - intros x [<-|[<-|[<-|[<-|[]]]]]; reflexivity.
  - rewrite H. reflexivity.
Defined.

(** X8: the check of [before_update] is an [assert] statement: when the
    interpreter runs with assertions off ([-O]), [before_update] accepts
    every instance the hook of the base class accepts, an instance with
    neither [src] nor [src_base64] included. *)
Theorem before_update_unchecked_without_assertions
  (h : host) (self : Audio) :
  py_debug h = false ->
  Service_before_update h self = (Ok tt, self) ->
  before_update h self = (Ok tt, self).
Proof.
  intros Hd Hb. unfold before_update. rewrite Hb, Hd. reflexivity.
Qed.

Lemma before_update_unchecked_without_assertions_witness :
  before_update (Host false (fun self => (Ok tt, self))) Audio_default
  = (Ok tt, Audio_default).
Proof.
  apply (before_update_unchecked_without_assertions
           (Host false (fun self => (Ok tt, self))) Audio_default).
  - reflexivity.
  - reflexivity.
Defined.

(** ** The calls each signature admits, one by one *)

Section ShapeFacts.

Lemma keyword_names_one n d pos kw k :
  well_formed_call [Param n d] (Call pos kw) ->
  In k (map fst kw) -> k = n /\ pos = [].
Proof.
  intros (_ & _ & Hk & _) Hin. simpl in *.
  destruct (Hk k Hin) as ([|[|i]] & Hi & Hl); simpl in Hi;
    try discriminate.
  inversion Hi; subst. split; [reflexivity|].
  destruct pos; [reflexivity|simpl in Hl; lia].
Qed.

Lemma shapes_one n d c :
  well_formed_call [Param n d] c ->
  c = Call [] [] \/ exists t, c = Call [t] [] \/ c = Call [] [(n, t)].
Proof.
  destruct c as [pos kw]. intros Hwf.
  pose proof (keyword_names_one n d pos kw) as Hkey.
  specialize (fun k => Hkey k Hwf).
  destruct Hwf as (Hl & Hnd & _ & _). unfold keywords in *. simpl in *.
  destruct kw as [|[k v] [|[k' v'] rest]]; simpl in *.
  - destruct pos as [|a [|b r]]; simpl in Hl; try lia.
    + now left.
    + right. exists a. now left.
  - destruct (Hkey k (or_introl eq_refl)) as [-> ->].
    right. exists v. now right.
  - destruct (Hkey k (or_introl eq_refl)) as [-> _].
    destruct (Hkey k' (or_intror (or_introl eq_refl))) as [-> _].
    inversion Hnd; subst. simpl in *. tauto.
Qed.

Lemma keyword_names_two n1 d1 n2 d2 pos kw k :
  well_formed_call [Param n1 d1; Param n2 d2] (Call pos kw) ->
  In k (map fst kw) ->
  (k = n1 /\ pos = []) \/ (k = n2 /\ (List.length pos <= 1)%nat).
Proof.
  intros (_ & _ & Hk & _) Hin. simpl in *.
  destruct (Hk k Hin) as ([|[|i]] & Hi & Hl); simpl in Hi.
  - inversion Hi; subst. left. split; [reflexivity|].
    destruct pos; [reflexivity|simpl in Hl; lia].
  - inversion Hi; subst. right. split; [reflexivity|exact Hl].
  - destruct i; discriminate.
Qed.

Lemma shapes_two n1 d1 n2 d2 c :
  n1 <> n2 ->
  well_formed_call [Param n1 d1; Param n2 d2] c ->
  (c = Call [] [] \/ exists t, c = Call [] [(n2, t)]) \/
  exists p t,
    c = Call [p] [] \/
    c = Call [p; t] [] \/
    c = Call [p] [(n2, t)] \/
    c = Call [] [(n1, p)] \/
    c = Call [] [(n1, p); (n2, t)] \/
    c = Call [] [(n2, t); (n1, p)].
Proof.
  intros Hne. destruct c as [pos kw]. intros Hwf.
  pose proof (keyword_names_two n1 d1 n2 d2 pos kw) as Hkey.
  specialize (fun k => Hkey k Hwf).
  destruct Hwf as (Hl & Hnd & _ & _). unfold keywords in *. simpl in *.
  destruct kw as [|[k v] [|[k' v'] [|[k'' v''] rest]]]; simpl in *.
  - destruct pos as [|a [|b [|x r]]]; simpl in Hl; try lia.
    + left. now left.
    + right. exists a, a. now left.
    + right. exists a, b. right. now left.
  - destruct (Hkey k (or_introl eq_refl)) as [[-> ->]|[-> Hp]].
    + right. exists v, v. do 3 right. now left.
    + destruct pos as [|a [|b r]]; simpl in Hp; try lia.
      * left. right. now exists v.
      * right. exists a, v. do 2 right. now left.
  - inversion Hnd as [|? ? Hnin _]; subst. simpl in Hnin.
    destruct (Hkey k (or_introl eq_refl)) as [[-> ->]|[-> Hp]];
      destruct (Hkey k' (or_intror (or_introl eq_refl)))
        as [[-> Hp']|[-> Hp']]; try tauto.
    + right. exists v, v'. do 4 right. now left.
    + subst pos. right. exists v', v. now do 5 right.
  - exfalso.
    inversion Hnd as [|? ? Hnin Hnd']; subst.
    inversion Hnd' as [|? ? Hnin' _]; subst. simpl in Hnin, Hnin'.
    destruct (Hkey k (or_introl eq_refl)) as [[-> _]|[-> _]];
      destruct (Hkey k' (or_intror (or_introl eq_refl)))
        as [[-> _]|[-> _]];
      destruct (Hkey k'' (or_intror (or_intror (or_introl eq_refl))))
        as [[-> _]|[-> _]]; tauto.
Qed.

End ShapeFacts.

(** X9: the calls each suspending form accepts, one by one.  A method
    with the one parameter [timeout] accepts no argument, one positional
    argument, or the keyword [timeout]; [seek_async] accepts a position
    given by position or by keyword, with the timeout left out, second by
    position or by keyword (the keywords in either order); [play_async]
    accepts the same and, besides, the calls without a position.  Every
    other call is refused. *)
Theorem accepted_call_shapes (o : operation) (self : Audio) (c : call) :
  (exists coro, suspending_form o self c = Ok coro) <-> call_shape o c.
Proof.
  assert (Hpt : "position" <> "timeout") by discriminate.
  split.
  - intros [coro S].
    pose proof (suspending_binds self o c coro S) as B.
    apply (bind_args_accepts_iff _ _ (params_nodup o)) in B.
    destruct o; simpl in *;
      unfold play_params, seek_params, timeout_only_params, timeout_param
        in B.
    all: try (apply shapes_one in B; exact B).
    + apply shapes_two in B; [|exact Hpt].
      destruct B as [[B|B]|B]; [now left|right; now left|right; now right].
    + pose proof B as (_ & _ & _ & Hreq).
      apply shapes_two in B; [|exact Hpt].
      destruct B as [[B|[t B]]|B]; [| |exact B]; subst c; exfalso;
        destruct (Hreq 0%nat _ eq_refl eq_refl) as [H|H]; simpl in H;
        try lia; destruct H as [H|H]; try discriminate; contradiction.
  - intros Hs.
    destruct o; simpl in Hs.
    all: try (destruct Hs as [-> | [t [-> | ->]]]; eexists; reflexivity).
    + destruct Hs as [-> | [[t ->] | (p & t & [-> | [-> | [-> | [-> | [-> | ->]]]]])]];
        eexists; reflexivity.
    + destruct Hs as (p & t & [-> | [-> | [-> | [-> | [-> | ->]]]]]);
        eexists; reflexivity.
Qed.

(** ** Failures of a series of calls *)

Section ReportFacts.

Lemma fire_step_tasks o self c rt ch :
  is_query o = false ->
  running rt = true ->
  reported (fire o self c rt) = reported rt /\
  tasks (run_ready ch (fire o self c rt))
    = (tasks (run_ready ch rt) ++ background_task o self c ch)%list.
Proof.
  intros Hq R. unfold fire, background_task.
  destruct (fire_and_forget_form o) as [f|] eqn:Hf.
  - destruct (spawned_run o f self c rt ch Hf R) as (_ & _ & _ & _ & Ht).
    split.
    + rewrite (fire_and_forget_spec self o f c rt Hf).
      destruct (suspending_form o self c); [rewrite R|]; reflexivity.
    + rewrite Ht. destruct (suspending_form o self c); reflexivity.
  - destruct o; simpl in *; discriminate.
Qed.

Lemma failures_of_background o self c ch :
  failures_of (background_task o self c ch) = background_failure o self c ch.
Proof.
  unfold failures_of, background_task, background_failure.
  destruct (suspending_form o self c) as [coro|e]; [|reflexivity].
  destruct (fst (run_coro coro ch)) as [[v|e]|]; reflexivity.
Qed.

Lemma failures_of_flat_map {A} (f : A -> list task_state)
  (g : A -> list exn) l :
  (forall x, failures_of (f x) = g x) ->
  failures_of (flat_map f l) = flat_map g l.
Proof.
  intros H. induction l as [|x rest IH]; simpl; [reflexivity|].
  unfold failures_of in *. now rewrite flat_map_app, H, IH.
Qed.

Lemma flat_map_ext_in {A B} (f g : A -> list B) l :
  (forall x, In x l -> f x = g x) -> flat_map f l = flat_map g l.
Proof.
  induction l as [|x rest IH]; intros H; simpl; [reflexivity|].
  rewrite (H x (or_introl eq_refl)), IH; [reflexivity|].
  intros y Hy. apply H. now right.
Qed.

Lemma failure_at_collect ts : forall i,
  snd (collect_at i ts) = failure_at i ts /\
  forall j, j <> i -> failure_at j (fst (collect_at i ts)) = failure_at j ts.
Proof.
  unfold failure_at.
  induction ts as [|t rest IH]; intros [|i]; simpl.
  - split; [reflexivity|]. intros [|j] _; reflexivity.
  - split; [reflexivity|]. intros [|j] _; reflexivity.
  - split.
    + destruct t as [coro| |[v|e]|]; reflexivity.
    + intros [|j] Hj; [contradiction|].
      destruct t as [coro| |[v|e]|]; reflexivity.
  - destruct (IH i) as [Hs Ho]. destruct (collect_at i rest) as [rest' es].
    simpl in *. split; [exact Hs|].
    intros [|j] Hj; [reflexivity|]. simpl. apply Ho. lia.
Qed.

(** The log after a series of collections: the exceptions come in the
    order in which their tasks are collected. *)
Lemma reported_collect_in order : forall rt,
  NoDup order ->
  reported (collect_in order rt)
  = (reported rt ++ flat_map (fun i => failure_at i (tasks rt)) order)%list.
Proof.
  induction order as [|i rest IH]; intros rt Hnd; simpl.
  - now rewrite app_nil_r.
  - apply NoDup_cons_iff in Hnd as [Hnin Hnd].
    rewrite (IH _ Hnd), reported_collect_task, tasks_collect_task.
    destruct (failure_at_collect (tasks rt) i) as [Hs Ho].
    rewrite Hs, <- app_assoc. f_equal. f_equal.
    apply flat_map_ext_in. intros j Hj. apply Ho.
    intros ->. contradiction.
Qed.

Lemma flat_map_seq_shift {B} (f : nat -> list B) n : forall k,
  flat_map f (seq (S k) n) = flat_map (fun i => f (S i)) (seq k n).
Proof.
  induction n as [|n IH]; intros k; simpl; [reflexivity|].
  now rewrite IH.
Qed.

Lemma failures_by_index ts :
  flat_map (fun i => failure_at i ts) (seq 0 (List.length ts))
  = failures_of ts.
Proof.
  induction ts as [|t rest IH]; simpl; [reflexivity|].
  rewrite flat_map_seq_shift. unfold failure_at at 1. simpl.
  unfold failures_of in *. simpl. rewrite <- IH. reflexivity.
Qed.

End ReportFacts.

(** X10: after a series of fire-and-forget calls made in a running loop,
    the loop holds one task for each call that was accepted, in the order
    of the calls, and nothing has been reported.  Once the loop has run,
    the exceptions come into the log in the order in which the tasks are
    collected, which need not be that of the calls; when every task has
    been collected, the exceptions reported are those of the commands that
    failed, each once, and no other. *)
Theorem fire_all_reports_each_failure
  (l : list (operation * call)) (self : Audio) (rt : runtime)
  (ch : Channel) (order : list nat) :
  running rt = true ->
  (forall x, In x l -> is_query (fst x) = false) ->
  NoDup order ->
  reported (fire_all l self rt) = reported rt /\
  tasks (run_ready ch (fire_all l self rt))
    = (tasks (run_ready ch rt)
       ++ flat_map (fun x => background_task (fst x) self (snd x) ch) l)%list /\
  reported (collect_in order (run_ready ch (fire_all l self rt)))
    = (reported rt
       ++ flat_map
            (fun i => failure_at i (tasks (run_ready ch (fire_all l self rt))))
            order)%list /\
  ((forall i, In i order <->
              (i < List.length (tasks (run_ready ch (fire_all l self rt))))%nat) ->
   Permutation
     (reported (collect_in order (run_ready ch (fire_all l self rt))))
     (reported rt
      ++ failures_of (tasks (run_ready ch rt))
      ++ flat_map (fun x => background_failure (fst x) self (snd x) ch) l)%list).
Proof.
  intros R Hq Hnd.
  assert (H : reported (fire_all l self rt) = reported rt /\
              tasks (run_ready ch (fire_all l self rt))
              = (tasks (run_ready ch rt)
                 ++ flat_map
                      (fun x => background_task (fst x) self (snd x) ch) l)%list).
  { revert rt R. induction l as [|[o c] rest IH]; intros rt R; simpl.
    - now rewrite app_nil_r.
    - assert (Hqo : is_query o = false) by (apply (Hq (o, c)); now left).
      destruct (fire_step o self c rt ch Hqo R) as (R' & _ & _).
      destruct (fire_step_tasks o self c rt ch Hqo R) as [Hr Ht].
      destruct (IH (fun x Hx => Hq x (or_intror Hx)) (fire o self c rt) R')
        as [Hr' Ht'].
      split; [congruence|].
      rewrite Ht', Ht, app_assoc. reflexivity. }
  destruct H as [Hr Ht]. split; [exact Hr|]. split; [exact Ht|].
  assert (Hrep := reported_collect_in order
                    (run_ready ch (fire_all l self rt)) Hnd).
  rewrite reported_run_ready, Hr in Hrep.
  split; [exact Hrep|].
  intros Hall. rewrite Hrep. apply Permutation_app_head.
  rewrite <- (failures_of_flat_map
                (fun x => background_task (fst x) self (snd x) ch)
                (fun x => background_failure (fst x) self (snd x) ch) l)
    by (intros x; apply failures_of_background).
  unfold failures_of at 1 2. rewrite <- flat_map_app.
  fold (failures_of
          (tasks (run_ready ch rt)
           ++ flat_map (fun x => background_task (fst x) self (snd x) ch) l)).
  rewrite <- Ht, <- failures_by_index.
  apply Permutation_flat_map.
  apply NoDup_Permutation; [exact Hnd|apply seq_NoDup|].
  intros i. rewrite Hall, in_seq. lia.
Qed.

(** [play(timeout=2); pause(timeout=0.5)], both commands failing: the task
    of [pause] ends and is collected first, and its exception comes first
    in the log. *)
Lemma fire_all_reports_each_failure_witness :
  reported
    (collect_in [1; 0]%nat
       (run_ready failing_channel
          (fire_all
             [(Play, Call [] [("timeout", VInt 2)]);
              (Pause, Call [] [("timeout", VFloat (1 # 2))])]
             a_mp3 (Runtime true [] [] []))))
  = [Exn TimeoutError "pause"; Exn TimeoutError "play"].
Proof.
  destruct (fire_all_reports_each_failure
              [(Play, Call [] [("timeout", VInt 2)]);
               (Pause, Call [] [("timeout", VFloat (1 # 2))])]
              a_mp3 (Runtime true [] [] []) failing_channel [1; 0]%nat
              eq_refl) as (_ & _ & H & _).
  - intros x [<-|[<-|[]]]; reflexivity.
  - constructor; [simpl; intros [H|[]]; discriminate|].
    constructor; [simpl; tauto|constructor].
  - rewrite H. reflexivity.
Defined.
